(** * Phi-Chain consensus engine: a shallow embedding and its properties

    The development follows the three layers of the Python sources:

    - [Dec]: the values of [decimal.Decimal] under the context the modules
      install ([getcontext().prec = 50], rounding half-even);
    - the class [PhiMath] of [core/fibonacci_logic.py];
    - the classes [Validator] and [PhiConsensus] of
      [phi/consensus/phi_validator.py];
    - the class [Blockchain] of [phi/blockchain.py].

    Python integers are unbounded, hence [Z].  A [dict] keeps its keys in
    insertion order and the engine iterates over [validators.values()], so
    the registry is an association list in insertion order.  The clock read
    by [_update_validator_performance] is an argument of the operations that
    reach it, and console output is left out.  [generate_consensus_report]
    only reads the state and reports floats; it is not part of the model. *)

From Stdlib Require Import ZArith List String Ascii Bool Lia.
Import ListNotations.

#[local] Open Scope Z_scope.

(* ================================================================== *)
(** ** Decimal arithmetic *)
(* ================================================================== *)

(** A finite decimal is a signed coefficient and an exponent; its value is
    [coeff * 10 ^ expo].  Every operation computes the exact result and
    rounds it once to [prec] significant digits, ties to even, as the
    decimal context prescribes.  The model is one of values: for a given
    value the exponent it picks may differ from the library's (trailing
    zeros), which none of the operations used by the engine observes.  The
    exponent limits of the context (Emax = 999999) are not represented. *)

Module Dec.

Record Decimal : Type := mkDecimal { coeff : Z; expo : Z }.

Definition prec : Z := 50.

Fixpoint ndigits_pos (p : positive) (fuel : nat) : Z :=
  match fuel with
  | O => 1
  | S fuel' =>
      if Z.pos p <? 10 then 1
      else match Z.pos p / 10 with
           | Z.pos q => 1 + ndigits_pos q fuel'
           | _ => 1
           end
  end.

(** [len(str(abs n))]: the number of decimal digits, 1 for zero. *)
Definition ndigits (n : Z) : Z :=
  match n with
  | Z0 => 1
  | Z.pos p | Z.neg p => ndigits_pos p (Pos.to_nat (Pos.size p))
  end.

(** Round half-even of a non-negative [a] to a multiple of [10^drop],
    returned as the quotient. *)
Definition round_half_even (a drop : Z) : Z :=
  let p := 10 ^ drop in
  let q := a / p in
  let r := a mod p in
  if (p <? 2 * r) || ((2 * r =? p) && Z.odd q) then q + 1 else q.

(** [Decimal._fix]: bring a result back to at most [prec] digits. *)
Definition fix_ (d : Decimal) : Decimal :=
  let n := ndigits (coeff d) in
  if n <=? prec then d
  else
    let drop := n - prec in
    let q := round_half_even (Z.abs (coeff d)) drop in
    if prec <? ndigits q
    then mkDecimal (Z.sgn (coeff d) * (q / 10)) (expo d + drop + 1)
    else mkDecimal (Z.sgn (coeff d) * q) (expo d + drop).

(** [Decimal(n)] for an [int]: exact, never rounded. *)
Definition of_int (n : Z) : Decimal := mkDecimal n 0.

Definition mul (x y : Decimal) : Decimal :=
  fix_ (mkDecimal (coeff x * coeff y) (expo x + expo y)).

Definition add (x y : Decimal) : Decimal :=
  let e := Z.min (expo x) (expo y) in
  fix_ (mkDecimal (coeff x * 10 ^ (expo x - e) + coeff y * 10 ^ (expo y - e)) e).

(** [Decimal.__truediv__] for a non-zero divisor: the quotient is taken with
    [prec + 1] digits and a sticky last digit, so that [fix_] rounds the
    exact quotient correctly.  Division by zero raises in Python; the model
    returns zero there and the engine never divides by zero. *)
Definition div (x y : Decimal) : Decimal :=
  if coeff y =? 0 then mkDecimal 0 0
  else
    let shift := ndigits (coeff y) - ndigits (coeff x) + prec + 1 in
    let a := Z.abs (coeff x) in
    let b := Z.abs (coeff y) in
    let num := if 0 <=? shift then a * 10 ^ shift else a in
    let den := if 0 <=? shift then b else b * 10 ^ (- shift) in
    let q := num / den in
    let r := num mod den in
    let q' := if (negb (r =? 0)) && (q mod 5 =? 0) then q + 1 else q in
    fix_ (mkDecimal (Z.sgn (coeff x) * Z.sgn (coeff y) * q')
                    (expo x - expo y - shift)).

(** [Decimal.sqrt] of a positive decimal, following the library's
    algorithm: an integer square root with [prec + 1] digits and a sticky
    last digit.  Other arguments give zero. *)
Definition sqrt (x : Decimal) : Decimal :=
  if coeff x <=? 0 then mkDecimal 0 0
  else
    let p := prec + 1 in
    let odd_exp := Z.odd (expo x) in
    let e := Z.div2 (expo x - (if odd_exp then 1 else 0)) in
    let c := if odd_exp then coeff x * 10 else coeff x in
    let l := if odd_exp then ndigits (coeff x) / 2 + 1
             else (ndigits (coeff x) + 1) / 2 in
    let shift := p - l in
    let c' := if 0 <=? shift then c * 100 ^ shift else c / 100 ^ (- shift) in
    let exact0 := if 0 <=? shift then true
                  else c mod 100 ^ (- shift) =? 0 in
    let n := Z.sqrt c' in
    let exact := exact0 && (n * n =? c') in
    let n' := if exact then n else if n mod 5 =? 0 then n + 1 else n in
    fix_ (mkDecimal n' (e - shift)).

(** [x.quantize(Decimal('1e-k'))]: the value of [x] rounded half-even to
    [k] fractional digits. *)
Definition quantize (x : Decimal) (k : Z) : Decimal :=
  let target := - k in
  if target <=? expo x
  then mkDecimal (coeff x * 10 ^ (expo x - target)) target
  else mkDecimal (Z.sgn (coeff x)
                  * round_half_even (Z.abs (coeff x)) (target - expo x))
                 target.

(** [int(x)]: truncation toward zero. *)
Definition to_int (x : Decimal) : Z :=
  if 0 <=? expo x then coeff x * 10 ^ expo x
  else Z.quot (coeff x) (10 ^ (- expo x)).

(** [x == 0]. *)
Definition is_zero (x : Decimal) : bool := coeff x =? 0.

(** [x < y] and [x <= y] on values. *)
Definition ltb (x y : Decimal) : bool :=
  let e := Z.min (expo x) (expo y) in
  coeff x * 10 ^ (expo x - e) <? coeff y * 10 ^ (expo y - e).

Definition leb (x y : Decimal) : bool := negb (ltb y x).

(** The builtin [min(x, y)]: [y] only when it is strictly smaller. *)
Definition min (x y : Decimal) : Decimal := if ltb y x then y else x.

(** A reference instance of [x ** Decimal(n)] for an integer [n]: the exact
    power, rounded once.  The library promises a result within one unit in
    the last place of it; the engine below is parametrised by the power
    function and this instance only serves to run examples. *)
Definition pow_int (x : Decimal) (n : Z) : Decimal :=
  if 0 <=? n then fix_ (mkDecimal (coeff x ^ n) (expo x * n))
  else div (mkDecimal 1 0) (mkDecimal (coeff x ^ (- n)) (expo x * (- n))).

End Dec.

Import Dec.

(** [Decimal('1.0')] *)
Definition one : Decimal := mkDecimal 10 (-1).

(* ================================================================== *)
(** ** core/fibonacci_logic.py: class PhiMath *)
(* ================================================================== *)

(** [self._phi = (Decimal(1) + Decimal(5).sqrt()) / Decimal(2)] *)
Definition _phi : Decimal :=
  Dec.div (Dec.add (of_int 1) (Dec.sqrt (of_int 5))) (of_int 2).

Definition golden_ratio (precision : Z) : Decimal :=
  Dec.quantize _phi precision.

(** The loop [for _ in range(2, n + 1): a, b = b, a + b], run [k] times. *)
Fixpoint fib_loop (k : nat) (a b : Z) : Z * Z :=
  match k with
  | O => (a, b)
  | S k' => fib_loop k' b (a + b)
  end.

Definition fibonacci (n : Z) : Z :=
  if n <=? 0 then 0
  else if n =? 1 then 1
  else snd (fib_loop (Z.to_nat (n - 1)) 0 1).

(** [range(start, start + count)] *)
Definition range (start count : Z) : list Z :=
  map (fun i => start + Z.of_nat i) (seq 0 (Z.to_nat count)).

Definition fibonacci_sequence (start count : Z) : list Z :=
  map fibonacci (range start count).

(** [sum] of a list of integers. *)
Definition sum (l : list Z) : Z := fold_left Z.add l 0.

(** One pass of the distribution loop: the truncated proportional share of
    the slot whose Fibonacci number is [f]. *)
Definition reward_amount (total_fib total_reward f : Z) : Z :=
  let share := Dec.div (of_int f) (of_int total_fib) in
  Dec.to_int (Dec.mul share (of_int total_reward)).

Definition fibonacci_distribution (total_reward count : Z) : list Z :=
  if count <=? 0 then []
  else
    let fib_numbers := fibonacci_sequence 1 count in
    let total_fib := sum fib_numbers in
    if total_fib =? 0 then repeat 0 (Z.to_nat count)
    else
      let rewards := map (reward_amount total_fib total_reward) fib_numbers in
      let remaining_reward := total_reward - sum rewards in
      match rewards with
      | [] => []
      | r0 :: rest => (r0 + remaining_reward) :: rest
      end.

(* ================================================================== *)
(** ** phi/consensus/phi_validator.py *)
(* ================================================================== *)

Record Validator : Type := mkValidator {
  address : string;
  public_key : string;
  stake : Z;
  weight : Decimal;
  fibonacci_index : Z;
  is_active : bool;
  last_validated : Z;
  performance_score : Decimal
}.

(** *** Python dictionaries keyed by strings, in insertion order *)

Section Dict.
Context {V : Type}.

Definition dict : Type := list (string * V).

Fixpoint dict_get (k : string) (d : dict) : option V :=
  match d with
  | [] => None
  | (k', v) :: d' => if String.eqb k k' then Some v else dict_get k d'
  end.

(** [k in d] *)
Definition dict_mem (k : string) (d : dict) : bool :=
  match dict_get k d with Some _ => true | None => false end.

(** [d[k] = v]: an existing key keeps its place, a new one goes last. *)
Fixpoint dict_set (k : string) (v : V) (d : dict) : dict :=
  match d with
  | [] => [(k, v)]
  | (k', v') :: d' =>
      if String.eqb k k' then (k', v) :: d' else (k', v') :: dict_set k v d'
  end.

Definition keys (d : dict) : list string := map fst d.
Definition values (d : dict) : list V := map snd d.
End Dict.

Arguments dict : clear implicits.

Record PhiConsensus : Type := mkPhiConsensus {
  network_id : string;
  validators : dict Validator;
  current_leader_index : Z;
  round_number : Z
}.

(** The block proposal handed to [validate_block]: a dictionary whose
    entries may be missing ([dict.get] then supplies the default). *)
Record MathProof : Type := mkMathProof {
  proof_fibonacci_number : option Z;
  proof_fibonacci_index : option Z
}.

Record Header : Type := mkHeader {
  golden_ratio_hash : option string
}.

Record BlockData : Type := mkBlockData {
  height : option Z;
  mathematical_proof : option MathProof;
  header : option Header;
  signature : option string
}.

Definition len {A : Type} (l : list A) : Z := Z.of_nat (List.length l).

Definition with_validators (st : PhiConsensus) (vs : dict Validator)
  : PhiConsensus :=
  mkPhiConsensus (network_id st) vs (current_leader_index st) (round_number st).

Definition with_leader (st : PhiConsensus) (idx : Z) : PhiConsensus :=
  mkPhiConsensus (network_id st) (validators st) idx (round_number st + 1).

(** [PhiConsensus.__init__] *)
Definition init (nid : string) : PhiConsensus := mkPhiConsensus nid [] 0 0.

(** [[v for v in self.validators.values() if v.is_active]] *)
Definition active_validators (st : PhiConsensus) : list Validator :=
  filter is_active (values (validators st)).

Section Engine.

(** [x ** Decimal(n)] for an integer [n].  The decimal library leaves the
    last digit of a power implementation-defined, so the engine takes the
    operation as a parameter. *)
Variable dec_pow : Decimal -> Z -> Decimal.

Definition get_priority_score (v : Validator) (block_height : Z) : Decimal :=
  let fib_number := fibonacci (block_height mod 100) in
  let phi := golden_ratio 10 in
  let base_priority :=
    Dec.mul (Dec.mul (of_int (stake v)) (weight v)) (performance_score v) in
  let modulation := Dec.div (of_int fib_number) (of_int 1000) in
  let golden_scaling := dec_pow phi (fibonacci_index v mod 10) in
  Dec.mul (Dec.mul base_priority modulation) golden_scaling.

Definition add_validator (st : PhiConsensus) (addr pk : string) (stk : Z)
    (fib_idx : option Z) : bool * PhiConsensus :=
  if dict_mem addr (validators st) then (false, st)
  else
    let fibonacci_index :=
      match fib_idx with
      | Some i => i
      | None => len (validators st)
      end in
    let weight := dec_pow (golden_ratio 10) fibonacci_index in
    let validator :=
      mkValidator addr pk stk weight fibonacci_index true 0 one in
    (true, with_validators st (dict_set addr validator (validators st))).

(** The accumulation [total_priority += priority] over the active list. *)
Definition total_priority (active : list Validator) (block_height : Z)
  : Decimal :=
  fold_left (fun acc v => Dec.add acc (get_priority_score v block_height))
            active (mkDecimal 0 0).

Definition select_leader (st : PhiConsensus) (block_height : Z)
  : option Validator * PhiConsensus :=
  match validators st with
  | [] => (None, st)
  | _ :: _ =>
      let active := active_validators st in
      match active with
      | [] => (None, st)
      | first :: _ =>
          if Dec.is_zero (total_priority active block_height)
          then (Some first, st)
          else
            let fib_number := fibonacci (block_height mod len active) in
            let selection_index := fib_number mod len active in
            match nth_error active (Z.to_nat selection_index) with
            | Some selected => (Some selected, with_leader st selection_index)
            | None => (None, st)
            end
      end
  end.

(** [_verify_fibonacci_proof]: a missing [height] defaults to 0, a missing
    proof entry is [None] and differs from every integer. *)
Definition _verify_fibonacci_proof (math_proof : MathProof)
    (block_data : BlockData) : bool :=
  let block_height :=
    match height block_data with Some h => h | None => 0 end in
  let expected_fib := fibonacci (block_height mod 1000) in
  match proof_fibonacci_number math_proof with
  | None => false
  | Some proof_fib =>
      if negb (proof_fib =? expected_fib) then false
      else
        let expected_index := block_height mod 1000 in
        match proof_fibonacci_index math_proof with
        | None => false
        | Some proof_index =>
            if negb (proof_index =? expected_index) then false else true
        end
  end.

(** [_verify_golden_hash]: only presence and length are checked. *)
Definition _verify_golden_hash (block_data : BlockData) : bool :=
  let golden_hash :=
    match header block_data with
    | Some h => match golden_ratio_hash h with
                | Some s => s
                | None => EmptyString
                end
    | None => EmptyString
    end in
  if String.eqb golden_hash EmptyString
     || negb (Nat.eqb (String.length golden_hash) 64)
  then false else true.

(** [_verify_signature]: the placeholder accepts every block. *)
Definition _verify_signature (block_data : BlockData) (pk : string)
  : bool :=
  let signature :=
    match signature block_data with Some s => s | None => EmptyString end in
  if String.eqb signature EmptyString then true else true.

(** [_update_validator_performance]; [now] is [int(time.time())].  The
    validator object is mutated in place, so it keeps its position. *)
Definition _update_validator_performance (st : PhiConsensus)
    (addr : string) (success : bool) (now : Z) : PhiConsensus :=
  match dict_get addr (validators st) with
  | None => st
  | Some validator =>
      let score :=
        if success then
          let new_score :=
            Dec.add (Dec.mul (performance_score validator)
                             (mkDecimal 95 (-2)))
                    (mkDecimal 5 (-2)) in
          Dec.min new_score one
        else Dec.mul (performance_score validator) (mkDecimal 9 (-1)) in
      let validator' :=
        mkValidator (address validator) (public_key validator)
                    (stake validator) (weight validator)
                    (fibonacci_index validator) (is_active validator)
                    now score in
      with_validators st (dict_set addr validator' (validators st))
  end.

Definition validate_block (st : PhiConsensus) (block_data : BlockData)
    (proposer_address : string) (now : Z) : bool * PhiConsensus :=
  match dict_get proposer_address (validators st) with
  | None => (false, st)
  | Some proposer =>
      if negb (is_active proposer) then (false, st)
      else
        let math_proof :=
          match mathematical_proof block_data with
          | Some p => p
          | None => mkMathProof None None
          end in
        if negb (_verify_fibonacci_proof math_proof block_data)
        then (false, st)
        else if negb (_verify_golden_hash block_data) then (false, st)
        else if negb (_verify_signature block_data (public_key proposer))
        then (false, st)
        else
          (true, _update_validator_performance st proposer_address true now)
  end.

Definition get_validator_rotation_schedule (st : PhiConsensus)
    (blocks_ahead : Z) : list (Z * string) :=
  let active := map address (active_validators st) in
  match active with
  | [] => []
  | _ :: _ =>
      map (fun block_offset =>
             let fib_num := fibonacci (block_offset mod 20) in
             let validator_index := fib_num mod len active in
             (block_offset,
              nth (Z.to_nat validator_index) active EmptyString))
          (range 0 blocks_ahead)
  end.

(** [enumerate(l)] *)
Definition enumerate {A : Type} (l : list A) : list (nat * A) :=
  combine (seq 0 (List.length l)) l.

Definition calculate_rewards (st : PhiConsensus)
    (block_height total_reward : Z) : dict Z :=
  let active := active_validators st in
  match active with
  | [] => []
  | _ :: _ =>
      let amounts := fibonacci_distribution total_reward (len active) in
      fold_left
        (fun rewards iv =>
           let '(i, validator) := iv in
           match nth_error amounts i with
           | Some a => dict_set (address validator) a rewards
           | None => dict_set (address validator) 0 rewards
           end)
        (enumerate active) []
  end.

(** [create_genesis_validators]: the six registrations, with the
    formatted addresses and keys written out. *)
Definition genesis_entries : list (string * string * Z * Z) :=
  [ ("phi_genesis_validator_0", "genesis_pub_key_00", 1000000, 0);
    ("phi_genesis_validator_1", "genesis_pub_key_01", 1618033, 1);
    ("phi_genesis_validator_2", "genesis_pub_key_02", 2618033, 2);
    ("phi_genesis_validator_3", "genesis_pub_key_03", 4236066, 3);
    ("phi_genesis_validator_4", "genesis_pub_key_04", 6854099, 4);
    ("phi_genesis_validator_5", "genesis_pub_key_05", 11090165, 5) ]%string.

Definition create_genesis_validators : PhiConsensus :=
  fold_left
    (fun consensus e =>
       let '(addr, pk, stk, i) := e in
       snd (add_validator consensus addr pk stk (Some i)))
    genesis_entries (init "phi-mainnet-1").

(** *** Sequences of engine operations *)

Inductive Op : Type :=
| OpAddValidator (addr pk : string) (stk : Z) (fib_idx : option Z)
| OpSelectLeader (block_height : Z)
| OpValidateBlock (block_data : BlockData) (proposer : string) (now : Z)
| OpRotationSchedule (blocks_ahead : Z)
| OpCalculateRewards (block_height total_reward : Z).

(** The state an operation leaves behind; the two queries leave it as it
    is. *)
Definition exec (st : PhiConsensus) (op : Op) : PhiConsensus :=
  match op with
  | OpAddValidator addr pk stk fib_idx =>
      snd (add_validator st addr pk stk fib_idx)
  | OpSelectLeader h => snd (select_leader st h)
  | OpValidateBlock b p now => snd (validate_block st b p now)
  | OpRotationSchedule _ => st
  | OpCalculateRewards _ _ => st
  end.

Definition run (ops : list Op) (st : PhiConsensus) : PhiConsensus :=
  fold_left exec ops st.

(** The states an engine can be in: those a sequence of operations
    produces from a fresh instance. *)
Definition reachable (st : PhiConsensus) : Prop :=
  exists nid ops, st = run ops (init nid).

End Engine.

(* ================================================================== *)
(** ** The orderings and shares the specification speaks of *)
(* ================================================================== *)

(** The specification's canonical ordering: the active validators sorted by
    address ascending.  It follows the specification's words and is compared
    below with the list the engine iterates over. *)
Fixpoint insert_by_address (v : Validator) (l : list Validator)
  : list Validator :=
  match l with
  | [] => [v]
  | w :: l' =>
      if String.leb (address v) (address w) then v :: w :: l'
      else w :: insert_by_address v l'
  end.

Definition sort_by_address (l : list Validator) : list Validator :=
  fold_right insert_by_address [] l.

Definition spec_canonical_active_list (st : PhiConsensus) : list Validator :=
  sort_by_address (active_validators st).

(** The specification's share of a slot: [floor(f * total / total_fib)] in
    integer arithmetic. *)
Definition spec_floor_share (total_fib total f : Z) : Z :=
  (f * total) / total_fib.

(** The keys of the registry are distinct (it is a dictionary) and every
    validator is stored under its own address. *)
Definition registry_ok (st : PhiConsensus) : Prop :=
  NoDup (keys (validators st))
  /\ Forall (fun kv => address (snd kv) = fst kv) (validators st).

(** No score above [1.0]. *)
Definition scores_bounded (st : PhiConsensus) : Prop :=
  Forall (fun kv => Dec.leb (performance_score (snd kv)) one = true)
         (validators st).

(** The height and the proof a block carries, with the defaults
    [dict.get] supplies for missing entries. *)
Definition block_height (b : BlockData) : Z :=
  match height b with Some h => h | None => 0 end.

Definition block_proof (b : BlockData) : MathProof :=
  match mathematical_proof b with
  | Some p => p
  | None => mkMathProof None None
  end.

(* ================================================================== *)
(** ** Concrete registries and blocks *)
(* ================================================================== *)

Definition genesis : PhiConsensus := create_genesis_validators pow_int.

(** Two registries with the same two validators, registered in opposite
    orders. *)
Definition registry_ab : PhiConsensus :=
  run pow_int
    [OpAddValidator "a" "key_a" 10 (Some 0);
     OpAddValidator "b" "key_b" 10 (Some 1)]
    (init "phi-mainnet-1").

Definition registry_ba : PhiConsensus :=
  run pow_int
    [OpAddValidator "b" "key_b" 10 (Some 1);
     OpAddValidator "a" "key_a" 10 (Some 0)]
    (init "phi-mainnet-1").

Definition hash64 : string :=
  "aaaaaaaaaaaaaaaaaaaaaaaaaaaaaaaaaaaaaaaaaaaaaaaaaaaaaaaaaaaaaaaa".

(** The block of [run_consensus_tests]. *)
Definition test_block : BlockData :=
  mkBlockData (Some 1) (Some (mkMathProof (Some (fibonacci 1)) (Some 1)))
              (Some (mkHeader (Some hash64))) (Some "test_signature"%string).

(** The same block with another Fibonacci number in its proof. *)
Definition bad_block : BlockData :=
  mkBlockData (Some 1) (Some (mkMathProof (Some 2) (Some 1)))
              (Some (mkHeader (Some hash64))) (Some "test_signature"%string).

(** The genesis registry is what six [add_validator] calls produce. *)
Definition genesis_ops : list Op :=
  map (fun e => let '(addr, pk, stk, i) := e in
                OpAddValidator addr pk stk (Some i))
      genesis_entries.

(* ================================================================== *)
(** ** phi/blockchain.py *)
(* ================================================================== *)

(** Timestamps and amounts are Python floats; the chain only stores them,
    so their type is a parameter.  [Block.hash] (SHA-256 of a JSON dump) is
    not modelled: nothing in [Blockchain] calls it. *)

Section Chain.

Variable dec_pow : Decimal -> Z -> Decimal.
Variable Float : Type.

Record Transaction : Type := mkTransaction {
  sender : string;
  recipient : string;
  amount : Float;
  tx_timestamp : Float
}.

Record Block : Type := mkBlock {
  index : Z;
  timestamp : Float;
  transactions : list Transaction;
  proof : Z;
  previous_hash : string;
  validator_address : string
}.

Record Blockchain : Type := mkBlockchain {
  chain : list Block;
  current_transactions : list Transaction;
  consensus_engine : PhiConsensus
}.

(** The dictionary [create_block] hands to the engine for a block of the
    given index. *)
Definition validation_data (block_index : Z) : BlockData :=
  mkBlockData (Some block_index)
    (Some (mkMathProof (Some (fibonacci (block_index mod 1000)))
                       (Some (block_index mod 1000))))
    (Some (mkHeader (Some hash64)))
    (Some "test_signature"%string).

(** [create_block]; [time_now] is the [time.time()] stored in the block and
    [now] the [int(time.time())] read by the engine on success.  The result
    is the block, or [None] where Python returns [None]. *)
Definition create_block (bc : Blockchain) (prf : Z)
    (prev_hash addr : string) (time_now : Float) (now : Z)
  : option Block * Blockchain :=
  let block :=
    mkBlock (len (chain bc) + 1) time_now (current_transactions bc)
            prf prev_hash addr in
  let '(ok, engine) :=
    validate_block (consensus_engine bc) (validation_data (index block))
                   addr now in
  if ok then (Some block, mkBlockchain (chain bc ++ [block]) [] engine)
  else (None, mkBlockchain (chain bc) [] engine).

(** [_initialize_genesis_validators] *)
Definition _initialize_genesis_validators (bc : Blockchain) : Blockchain :=
  mkBlockchain (chain bc) (current_transactions bc)
    (fold_left
       (fun consensus e =>
          let '(addr, pk, stk, i) := e in
          snd (add_validator dec_pow consensus addr pk stk (Some i)))
       genesis_entries (consensus_engine bc)).

(** [Blockchain.__init__]: the genesis block is proposed first, the genesis
    validators are registered afterwards. *)
Definition blockchain_init (time_now : Float) (now : Z) : Blockchain :=
  let bc := mkBlockchain [] [] (init "phi-mainnet-1") in
  let bc := snd (create_block bc (fibonacci 0) "1" "phi_genesis_validator_0"
                              time_now now) in
  _initialize_genesis_validators bc.

(** The property [last_block]: [chain[-1]], or [None] for an empty chain. *)
Definition last_block (bc : Blockchain) : option Block :=
  match chain bc with
  | [] => None
  | b :: rest => Some (last rest b)
  end.

(** [new_transaction]: the transaction is appended first; the returned
    index is [last_block.index + 1], and [None] stands for the
    [AttributeError] raised when there is no last block. *)
Definition new_transaction (bc : Blockchain) (sndr rcpt : string)
    (amt time_now : Float) : option Z * Blockchain :=
  let bc' :=
    mkBlockchain (chain bc)
      (current_transactions bc ++ [mkTransaction sndr rcpt amt time_now])
      (consensus_engine bc) in
  match last_block bc' with
  | Some b => (Some (index b + 1), bc')
  | None => (None, bc')
  end.

Definition get_next_leader (bc : Blockchain) : option string * Blockchain :=
  let next_height := len (chain bc) + 1 in
  let '(leader, engine) :=
    select_leader dec_pow (consensus_engine bc) next_height in
  (match leader with Some v => Some (address v) | None => None end,
   mkBlockchain (chain bc) (current_transactions bc) engine).

(** *** Sequences of chain operations *)

Inductive ChainOp : Type :=
| COpCreateBlock (prf : Z) (prev_hash addr : string) (time_now : Float)
                 (now : Z)
| COpNewTransaction (sndr rcpt : string) (amt time_now : Float)
| COpGetNextLeader.

Definition chain_exec (bc : Blockchain) (op : ChainOp) : Blockchain :=
  match op with
  | COpCreateBlock prf prev_hash addr time_now now =>
      snd (create_block bc prf prev_hash addr time_now now)
  | COpNewTransaction sndr rcpt amt time_now =>
      snd (new_transaction bc sndr rcpt amt time_now)
  | COpGetNextLeader => snd (get_next_leader bc)
  end.

Definition chain_run (ops : list ChainOp) (bc : Blockchain) : Blockchain :=
  fold_left chain_exec ops bc.

(** The chains a node can hold: those a sequence of operations produces
    from a freshly constructed [Blockchain]. *)
Definition chain_reachable (bc : Blockchain) : Prop :=
  exists time_now now ops, bc = chain_run ops (blockchain_init time_now now).

(** The proposer is registered with the chain's engine and active. *)
Definition proposer_in_good_standing (bc : Blockchain) (addr : string)
  : Prop :=
  exists v, dict_get addr (validators (consensus_engine bc)) = Some v
            /\ is_active v = true.

(** Block [i] of the chain, counted from 0, carries index [i + 1]. *)
Definition chain_indexed (bc : Blockchain) : Prop :=
  forall i b, nth_error (chain bc) i = Some b -> index b = Z.of_nat i + 1.

(** What a chain keeps from its construction on: blocks numbered from 1,
    the genesis keys in the engine, every block proposed by a registered
    address, and an engine state the engine's own operations can reach. *)
Definition chain_invariant (bc : Blockchain) : Prop :=
  chain_indexed bc
  /\ keys (validators (consensus_engine bc))
     = keys (validators (create_genesis_validators dec_pow))
  /\ (forall b, In b (chain bc) ->
        dict_mem (validator_address b) (validators (consensus_engine bc))
        = true)
  /\ reachable dec_pow (consensus_engine bc).

End Chain.

Arguments mkTransaction {Float}.
Arguments mkBlock {Float}.
Arguments mkBlockchain {Float}.
Arguments sender {Float}.
Arguments recipient {Float}.
Arguments amount {Float}.
Arguments tx_timestamp {Float}.
Arguments index {Float}.
Arguments timestamp {Float}.
Arguments transactions {Float}.
Arguments proof {Float}.
Arguments previous_hash {Float}.
Arguments validator_address {Float}.
Arguments chain {Float}.
Arguments current_transactions {Float}.
Arguments consensus_engine {Float}.
Arguments validation_data : clear implicits.
Arguments create_block {Float}.
Arguments _initialize_genesis_validators dec_pow {Float}.
Arguments blockchain_init dec_pow {Float}.
Arguments last_block {Float}.
Arguments new_transaction {Float}.
Arguments get_next_leader dec_pow {Float}.
Arguments COpCreateBlock {Float}.
Arguments COpNewTransaction {Float}.
Arguments COpGetNextLeader {Float}.
Arguments chain_exec dec_pow {Float}.
Arguments chain_run dec_pow {Float}.
Arguments chain_reachable dec_pow {Float}.
Arguments chain_indexed {Float}.
Arguments proposer_in_good_standing {Float}.
Arguments chain_invariant dec_pow {Float}.

(* ================================================================== *)
(** ** Further notions used in the statements *)
(* ================================================================== *)

(** The hash a block carries, with the default [dict.get] supplies. *)
Definition block_hash (b : BlockData) : string :=
  match header b with
  | Some h => match golden_ratio_hash h with
              | Some s => s
              | None => EmptyString
              end
  | None => EmptyString
  end.

(** The success branch of [_update_validator_performance] on a score. *)
Definition raised_score (s : Decimal) : Decimal :=
  Dec.min (Dec.add (Dec.mul s (mkDecimal 95 (-2))) (mkDecimal 5 (-2))) one.

(** The decimals [1.0], [1.00], ... with up to 49 zeros: the value one. *)
Definition is_unit_score (s : Decimal) : bool :=
  existsb (fun k => (coeff s =? 10 ^ k) && (expo s =? - k)) (range 1 49).

(** The operations that call [select_leader]. *)
Definition is_select_leader (op : Op) : bool :=
  match op with
  | OpSelectLeader _ => true
  | _ => false
  end.

(** *** Concrete chains, with integers for the clock readings *)

Definition fresh_chain : Blockchain Z := blockchain_init pow_int 0 0.

(** The fresh chain after one block proposed by genesis validator 1. *)
Definition chain_one : Blockchain Z :=
  chain_run pow_int
    [COpCreateBlock 12345 "prev" "phi_genesis_validator_1" 1 1700000000]
    fresh_chain.

(** The genesis registry after it accepted the block of the tests. *)
Definition genesis_validated : PhiConsensus :=
  run pow_int
    (genesis_ops
     ++ [OpValidateBlock test_block "phi_genesis_validator_1" 1700000000])
    (init "phi-mainnet-1").

(* ================================================================== *)
(** ** PhiMath: Fibonacci numbers and sums *)
(* ================================================================== *)

Lemma fib_loop_nonneg k : forall a b,
  0 <= a -> 0 <= b -> 0 <= fst (fib_loop k a b) /\ 0 <= snd (fib_loop k a b).
Proof.
  induction k as [|k IH]; intros a b Ha Hb; simpl.
  - split; assumption.
  - apply IH; lia.
Qed.

Lemma fibonacci_nonneg n : 0 <= fibonacci n.
Proof.
  unfold fibonacci.
  destruct (n <=? 0); [lia|].
  destruct (n =? 1); [lia|].
  apply fib_loop_nonneg; lia.
Qed.

Lemma fib_loop_succ k : forall a b,
  fib_loop (S k) a b =
  (snd (fib_loop k a b), fst (fib_loop k a b) + snd (fib_loop k a b)).
Proof.
  induction k as [|k IH]; intros a b.
  - reflexivity.
  - change (fib_loop (S (S k)) a b) with (fib_loop (S k) b (a + b)).
    rewrite IH. reflexivity.
Qed.

(** The iterative loop computes the Fibonacci recurrence. *)
Lemma fibonacci_recurrence n :
  2 <= n -> fibonacci n = fibonacci (n - 1) + fibonacci (n - 2).
Proof.
  intros Hn.
  assert (Hgen : forall k, fibonacci (Z.of_nat k + 1) = snd (fib_loop k 0 1)
                           /\ fibonacci (Z.of_nat k) = fst (fib_loop k 0 1)).
  { induction k as [|k [IH1 IH2]].
    - split; reflexivity.
    - rewrite fib_loop_succ. simpl fst. simpl snd. split.
      + unfold fibonacci at 1.
        destruct (Z.leb_spec (Z.of_nat (S k) + 1) 0); [lia|].
        destruct (Z.eqb_spec (Z.of_nat (S k) + 1) 1); [lia|].
        replace (Z.to_nat (Z.of_nat (S k) + 1 - 1)) with (S k) by lia.
        rewrite fib_loop_succ. reflexivity.
      + replace (Z.of_nat (S k)) with (Z.of_nat k + 1) by lia. exact IH1. }
  destruct (Hgen (Z.to_nat (n - 1))) as [H1 H2].
  destruct (Hgen (Z.to_nat (n - 2))) as [H3 H4].
  replace (Z.of_nat (Z.to_nat (n - 1)) + 1) with n in H1 by lia.
  replace (Z.of_nat (Z.to_nat (n - 1))) with (n - 1) in H2 by lia.
  replace (Z.of_nat (Z.to_nat (n - 2)) + 1) with (n - 1) in H3 by lia.
  replace (Z.of_nat (Z.to_nat (n - 2))) with (n - 2) in H4 by lia.
  rewrite H1, H2, H4.
  replace (Z.to_nat (n - 1)) with (S (Z.to_nat (n - 2))) by lia.
  rewrite fib_loop_succ. simpl. lia.
Qed.

Lemma fold_add_shift l : forall a, fold_left Z.add l a = a + fold_left Z.add l 0.
Proof.
  induction l as [|x l IH]; intros a; simpl.
  - lia.
  - rewrite (IH (a + x)), (IH x). lia.
Qed.

Lemma sum_cons x l : sum (x :: l) = x + sum l.
Proof. unfold sum. simpl. apply fold_add_shift. Qed.

Lemma sum_nil : sum [] = 0.
Proof. reflexivity. Qed.

Lemma sum_nonneg l : Forall (fun x => 0 <= x) l -> 0 <= sum l.
Proof.
  induction 1 as [|x l Hx _ IH].
  - rewrite sum_nil. lia.
  - rewrite sum_cons. lia.
Qed.

Lemma range_length start count : len (range start count) = Z.max 0 count.
Proof.
  unfold len, range. rewrite length_map, length_seq. lia.
Qed.

Lemma range_cons start count :
  1 <= count -> range start count = start :: range (start + 1) (count - 1).
Proof.
  intros Hc. unfold range.
  replace (Z.to_nat count) with (S (Z.to_nat (count - 1))) by lia.
  cbn [seq map]. f_equal; [lia|].
  rewrite <- seq_shift, map_map.
  apply map_ext. intros i. lia.
Qed.

Lemma range_nth start count i :
  0 <= i < count -> nth (Z.to_nat i) (range start count) 0 = start + i.
Proof.
  intros Hi. unfold range.
  rewrite (nth_indep _ 0 (start + Z.of_nat 0)).
  2:{ rewrite length_map, length_seq. lia. }
  rewrite (map_nth (fun j => start + Z.of_nat j) _ O).
  rewrite seq_nth by lia. lia.
Qed.

Lemma fibonacci_sequence_length start count :
  len (fibonacci_sequence start count) = Z.max 0 count.
Proof.
  unfold fibonacci_sequence, len. rewrite length_map.
  apply range_length.
Qed.

(** The Fibonacci weights [F(1) .. F(count)] add up to a positive total, so
    the guard [total_fib == 0] is never taken for [count >= 1]. *)
Lemma total_fib_positive count :
  1 <= count -> 0 < sum (fibonacci_sequence 1 count).
Proof.
  intros Hc. unfold fibonacci_sequence.
  rewrite (range_cons 1 count Hc). cbn [map]. rewrite sum_cons.
  change (fibonacci 1) with 1.
  assert (0 <= sum (map fibonacci (range (1 + 1) (count - 1)))).
  { apply sum_nonneg, Forall_forall. intros x Hx.
    apply in_map_iff in Hx. destruct Hx as [y [<- _]].
    apply fibonacci_nonneg. }
  lia.
Qed.

(** What [fibonacci_distribution] returns for [count >= 1]: the truncated
    shares, the first one topped up with whatever the truncation left. *)
Lemma fibonacci_distribution_unfold total count :
  1 <= count ->
  let fibs := fibonacci_sequence 1 count in
  let shares := map (reward_amount (sum fibs) total) fibs in
  fibonacci_distribution total count
  = (hd 0 shares + (total - sum shares)) :: tl shares.
Proof.
  intros Hc fibs shares. unfold fibonacci_distribution.
  destruct (Z.leb_spec count 0); [lia|].
  pose proof (total_fib_positive count Hc) as Hpos.
  destruct (Z.eqb_spec (sum (fibonacci_sequence 1 count)) 0); [lia|].
  fold fibs. fold shares.
  assert (Hlen : len shares = count).
  { unfold shares, len. rewrite length_map.
    pose proof (fibonacci_sequence_length 1 count) as Hl.
    unfold len in Hl. fold fibs in Hl. lia. }
  destruct shares as [|r0 rest]; [unfold len in Hlen; simpl in Hlen; lia|].
  reflexivity.
Qed.

Lemma fibonacci_distribution_length total count :
  len (fibonacci_distribution total count) = Z.max 0 count.
Proof.
  destruct (Z.le_gt_cases 1 count) as [Hc|Hc].
  - rewrite (fibonacci_distribution_unfold total count Hc).
    pose proof (fibonacci_sequence_length 1 count) as Hl.
    unfold len in *. simpl.
    destruct (fibonacci_sequence 1 count) as [|f fs] eqn:E;
      simpl in *; [lia|].
    rewrite length_map. lia.
  - unfold fibonacci_distribution.
    destruct (Z.leb_spec count 0); [|lia].
    unfold len. simpl. lia.
Qed.

Lemma fibonacci_distribution_sum total count :
  1 <= count -> sum (fibonacci_distribution total count) = total.
Proof.
  intros Hc. rewrite (fibonacci_distribution_unfold total count Hc).
  pose proof (fibonacci_sequence_length 1 count) as Hl.
  destruct (fibonacci_sequence 1 count) as [|f fs] eqn:E.
  - unfold len in Hl. simpl in Hl. lia.
  - cbn [map hd tl]. rewrite !sum_cons. lia.
Qed.

Lemma fibonacci_sequence_nth count i :
  0 <= i < count ->
  nth (Z.to_nat i) (fibonacci_sequence 1 count) 0 = fibonacci (i + 1).
Proof.
  intros Hi. unfold fibonacci_sequence.
  change 0 with (fibonacci 0) at 1.
  rewrite map_nth.
  rewrite range_nth by lia. f_equal. lia.
Qed.

Lemma distribution_slot_decimal total count i :
  1 <= count -> 1 <= i < count ->
  nth (Z.to_nat i) (fibonacci_distribution total count) 0
  = reward_amount (sum (fibonacci_sequence 1 count)) total (fibonacci (i + 1)).
Proof.
  intros Hc Hi.
  rewrite (fibonacci_distribution_unfold total count Hc).
  pose proof (fibonacci_sequence_length 1 count) as Hl. unfold len in Hl.
  pose proof (fibonacci_sequence_nth count i) as Hn.
  set (S := sum (fibonacci_sequence 1 count)) in *.
  destruct (fibonacci_sequence 1 count) as [|f fs] eqn:E;
    [simpl in Hl; lia|].
  cbn [map hd tl].
  replace (Z.to_nat i) with (Datatypes.S (Z.to_nat (i - 1))) in * by lia.
  cbn [nth] in *.
  rewrite (nth_indep _ 0 (reward_amount S total 0)).
  2:{ rewrite length_map. simpl in Hl. lia. }
  rewrite map_nth. f_equal. apply Hn. lia.
Qed.

Lemma fib_loop_pos k : forall a b,
  0 <= a -> 1 <= b -> 1 <= snd (fib_loop k a b).
Proof.
  induction k as [|k IH]; intros a b Ha Hb; simpl.
  - assumption.
  - apply IH; lia.
Qed.

Lemma fibonacci_pos n : 1 <= n -> 1 <= fibonacci n.
Proof.
  intros Hn. unfold fibonacci.
  destruct (Z.leb_spec n 0); [lia|].
  destruct (n =? 1); [lia|].
  apply fib_loop_pos; lia.
Qed.

Lemma member_le_sum x l : Forall (fun y => 0 <= y) l -> In x l -> x <= sum l.
Proof.
  induction 1 as [|y l Hy Hl IH]; intros Hin; [contradiction|].
  rewrite sum_cons. pose proof (sum_nonneg l Hl).
  destruct Hin as [->|Hin]; [lia|]. specialize (IH Hin). lia.
Qed.

Lemma fibonacci_weight_bounds count i :
  0 <= i < count ->
  1 <= fibonacci (i + 1) <= sum (fibonacci_sequence 1 count).
Proof.
  intros Hi. split; [apply fibonacci_pos; lia|].
  apply member_le_sum.
  - apply Forall_forall. intros x Hx. unfold fibonacci_sequence in Hx.
    apply in_map_iff in Hx. destruct Hx as [y [<- _]]. apply fibonacci_nonneg.
  - rewrite <- (fibonacci_sequence_nth count i Hi). apply nth_In.
    pose proof (fibonacci_sequence_length 1 count) as Hl. unfold len in Hl.
    lia.
Qed.

(* ================================================================== *)
(** ** Dictionaries *)
(* ================================================================== *)

Section DictFacts.
Context {V : Type}.
Implicit Types (d : dict V) (k : string) (v : V).

Lemma dict_get_none_not_in k d : dict_get k d = None <-> ~ In k (keys d).
Proof.
  induction d as [|[k' v'] d IH]; simpl.
  - tauto.
  - destruct (String.eqb_spec k k') as [->|Hne].
    + split; [discriminate|]. intros H. exfalso. apply H. now left.
    + rewrite IH. split.
      * intros H [Heq|Hin]; [congruence|tauto].
      * tauto.
Qed.

Lemma dict_mem_in k d : dict_mem k d = true <-> In k (keys d).
Proof.
  unfold dict_mem. pose proof (dict_get_none_not_in k d) as H.
  destruct (dict_get k d) eqn:E.
  - split; [|reflexivity]. intros _.
    destruct (in_dec string_dec k (keys d)) as [Hin|Hnin]; [assumption|].
    apply H in Hnin. discriminate.
  - split; [discriminate|]. intros Hin. apply H in Hin; tauto.
Qed.

Lemma dict_set_fresh k v d : dict_get k d = None -> dict_set k v d = d ++ [(k, v)].
Proof.
  induction d as [|[k' v'] d IH]; simpl; intros H.
  - reflexivity.
  - destruct (String.eqb k k'); [discriminate|].
    rewrite IH by assumption. reflexivity.
Qed.

Lemma dict_set_keys_present k v d :
  dict_get k d <> None -> keys (dict_set k v d) = keys d.
Proof.
  induction d as [|[k' v'] d IH]; simpl; intros H.
  - congruence.
  - destruct (String.eqb k k'); simpl; [reflexivity|].
    rewrite IH by assumption. reflexivity.
Qed.

Lemma dict_get_set_same k v d : dict_get k (dict_set k v d) = Some v.
Proof.
  induction d as [|[k' v'] d IH]; simpl.
  - rewrite String.eqb_refl. reflexivity.
  - destruct (String.eqb k k') eqn:E; simpl; rewrite E; auto.
Qed.


Lemma dict_get_in k v d : dict_get k d = Some v -> In (k, v) d.
Proof.
  induction d as [|[k' v'] d IH]; simpl; [discriminate|].
  destruct (String.eqb_spec k k') as [->|]; intros H.
  - left. congruence.
  - right. auto.
Qed.

(** Replacing the value of a key: every entry of the result is an old
    entry or the new one. *)
Lemma dict_set_Forall (P : string * V -> Prop) k v d :
  Forall P d -> P (k, v) -> Forall P (dict_set k v d).
Proof.
  intros Hd Hv. induction Hd as [|[k' v'] d Hx Hd IH]; simpl.
  - constructor; [apply Hv|constructor].
  - destruct (String.eqb_spec k k') as [<-|]; constructor; auto.
Qed.

Lemma values_combine (ks : list string) (vs : list V) :
  List.length ks = List.length vs -> values (combine ks vs) = vs.
Proof.
  revert vs. induction ks as [|k ks IH]; intros [|v vs] H;
    simpl in *; try discriminate; [reflexivity|].
  unfold values in *. rewrite IH by congruence. reflexivity.
Qed.

End DictFacts.

Lemma NoDup_map_filter {A B : Type} (f : A -> B) (p : A -> bool) l :
  NoDup (map f l) -> NoDup (map f (filter p l)).
Proof.
  induction l as [|x l IH]; simpl; intros H; [constructor|].
  inversion H as [|? ? Hnin Hnd]; subst.
  destruct (p x); simpl; auto.
  constructor; auto.
  intros Hin. apply Hnin.
  apply in_map_iff in Hin. destruct Hin as [y [Hy Hin]].
  apply filter_In in Hin. apply in_map_iff. exists y. tauto.
Qed.

(** In a well-formed registry the active validators have distinct
    addresses. *)
Lemma active_addresses_NoDup st :
  registry_ok st -> NoDup (map address (active_validators st)).
Proof.
  intros [Hnd Haddr]. unfold active_validators, values.
  apply NoDup_map_filter.
  rewrite map_map.
  replace (map (fun x => address (snd x)) (validators st))
    with (keys (validators st)); [assumption|].
  unfold keys. apply map_ext_in. intros kv Hin.
  rewrite Forall_forall in Haddr. symmetry. auto.
Qed.

(** The reward loop over validators with distinct addresses builds the
    dictionary that pairs the addresses with the amounts, position by
    position. *)
Lemma rewards_loop amounts : forall (l : list Validator) (n : nat) (acc : dict Z),
  NoDup (keys acc ++ map address l) ->
  (n + List.length l <= List.length amounts)%nat ->
  fold_left
    (fun rewards (iv : nat * Validator) =>
       let '(i, validator) := iv in
       match nth_error amounts i with
       | Some a => dict_set (address validator) a rewards
       | None => dict_set (address validator) 0 rewards
       end)
    (combine (seq n (List.length l)) l) acc
  = acc ++ combine (map address l) (firstn (List.length l) (skipn n amounts)).
Proof.
  induction l as [|v l IH]; intros n acc Hnd Hlen.
  - simpl. now rewrite app_nil_r.
  - cbn [List.length seq combine fold_left map].
    cbn [List.length] in Hlen.
    destruct (nth_error amounts n) as [a|] eqn:E.
    2:{ apply nth_error_None in E. lia. }
    rewrite dict_set_fresh.
    2:{ apply dict_get_none_not_in. apply NoDup_remove_2 in Hnd.
        intros Hin. apply Hnd. apply in_or_app. now left. }
    rewrite IH.
    + rewrite <- app_assoc. f_equal.
      assert (Hs : skipn n amounts = a :: skipn (S n) amounts).
      { clear -E. revert amounts E. induction n as [|n IHn];
          intros [|x xs] E; simpl in *; try discriminate.
        - congruence.
        - now apply IHn. }
      rewrite Hs. reflexivity.
    + unfold keys in *. rewrite map_app. cbn [map fst].
      rewrite <- app_assoc. exact Hnd.
    + lia.
Qed.

Lemma calculate_rewards_positional st h total :
  registry_ok st ->
  calculate_rewards st h total
  = combine (map address (active_validators st))
            (fibonacci_distribution total (len (active_validators st))).
Proof.
  intros Hok. pose proof (active_addresses_NoDup st Hok) as Hnd.
  unfold calculate_rewards.
  destruct (active_validators st) as [|v l] eqn:E; [reflexivity|].
  set (active := v :: l) in *.
  pose proof (fibonacci_distribution_length total (len active)) as Hl.
  unfold len in Hl. unfold enumerate.
  rewrite (rewards_loop _ active 0 []).
  - cbn [app skipn]. rewrite firstn_all2 by (unfold len; lia).
    reflexivity.
  - exact Hnd.
  - unfold len. lia.
Qed.

(* ================================================================== *)
(** ** Decimal facts used by the engine *)
(* ================================================================== *)

Lemma mul_zero_r x y : coeff y = 0 -> coeff (Dec.mul x y) = 0.
Proof.
  intros Hy. unfold Dec.mul. rewrite Hy, Z.mul_0_r. reflexivity.
Qed.

Lemma mul_zero_l x y : coeff x = 0 -> coeff (Dec.mul x y) = 0.
Proof.
  intros Hx. unfold Dec.mul. rewrite Hx, Z.mul_0_l. reflexivity.
Qed.

Lemma add_zero x y : coeff x = 0 -> coeff y = 0 -> coeff (Dec.add x y) = 0.
Proof.
  intros Hx Hy. unfold Dec.add. rewrite Hx, Hy, !Z.mul_0_l. reflexivity.
Qed.

Lemma min_le_one x : Dec.leb (Dec.min x one) one = true.
Proof.
  unfold Dec.min. destruct (Dec.ltb one x) eqn:E.
  - reflexivity.
  - unfold Dec.leb. rewrite E. reflexivity.
Qed.

(** *** Rounding errors *)

Lemma ndigits_pos_spec fuel : forall p,
  Z.pos p < 10 ^ Z.of_nat fuel ->
  1 <= ndigits_pos p fuel
  /\ 10 ^ (ndigits_pos p fuel - 1) <= Z.pos p < 10 ^ ndigits_pos p fuel.
Proof.
  induction fuel as [|fuel IH]; intros p Hp.
  - simpl in Hp. lia.
  - cbn [ndigits_pos].
    destruct (Z.ltb_spec (Z.pos p) 10) as [Hlt|Hge].
    + simpl. lia.
    + assert (Hq : 1 <= Z.pos p / 10) by (apply Z.div_le_lower_bound; lia).
      destruct (Z.pos p / 10) as [|q|q] eqn:E; try lia.
      assert (Hqb : Z.pos q < 10 ^ Z.of_nat fuel).
      { rewrite <- E. apply Z.div_lt_upper_bound; [lia|].
        rewrite Nat2Z.inj_succ, Z.pow_succ_r in Hp by lia. lia. }
      destruct (IH q Hqb) as [H1 [H2 H3]].
      pose proof (Z.div_mod (Z.pos p) 10 ltac:(lia)) as Hdm.
      pose proof (Z.mod_pos_bound (Z.pos p) 10 ltac:(lia)) as Hmb.
      rewrite E in Hdm.
      replace (1 + ndigits_pos q fuel - 1) with (Z.succ (ndigits_pos q fuel - 1)) by lia.
      replace (1 + ndigits_pos q fuel) with (Z.succ (ndigits_pos q fuel)) by lia.
      rewrite !Z.pow_succ_r by lia.
      lia.
Qed.

Lemma ndigits_spec n :
  0 < n -> 1 <= ndigits n /\ 10 ^ (ndigits n - 1) <= n < 10 ^ ndigits n.
Proof.
  intros Hn. destruct n as [|p|p]; try lia.
  unfold ndigits. apply ndigits_pos_spec.
  rewrite positive_nat_Z.
  pose proof (Pos.size_gt p) as Hs.
  assert (Z.pos p < 2 ^ Z.pos (Pos.size p)).
  { rewrite <- Pos2Z.inj_pow. lia. }
  assert (2 ^ Z.pos (Pos.size p) <= 10 ^ Z.pos (Pos.size p)).
  { apply Z.pow_le_mono_l. lia. }
  lia.
Qed.

Lemma ndigits_le n k : 0 < n -> n < 10 ^ k -> ndigits n <= k.
Proof.
  intros Hn Hk. destruct (ndigits_spec n Hn) as [H1 [H2 _]].
  destruct (Z.le_gt_cases (ndigits n) k) as [|Hgt]; [assumption|].
  assert (10 ^ k <= 10 ^ (ndigits n - 1)) by (apply Z.pow_le_mono_r; lia).
  lia.
Qed.


Lemma round_half_even_spec a d :
  0 <= a -> 0 <= d ->
  a / 10 ^ d <= round_half_even a d <= a / 10 ^ d + 1
  /\ 2 * Z.abs (round_half_even a d * 10 ^ d - a) <= 10 ^ d.
Proof.
  intros Ha Hd. unfold round_half_even.
  assert (Hp : 0 < 10 ^ d) by (apply Z.pow_pos_nonneg; lia).
  pose proof (Z.div_mod a (10 ^ d) ltac:(lia)) as Hdm.
  pose proof (Z.mod_pos_bound a (10 ^ d) Hp) as Hmb.
  set (p := 10 ^ d) in *. set (q := a / p) in *. set (r := a mod p) in *.
  destruct ((p <? 2 * r) || ((2 * r =? p) && Z.odd q)) eqn:E.
  - assert (p <= 2 * r).
    { apply orb_true_iff in E. destruct E as [E|E].
      - apply Z.ltb_lt in E. lia.
      - apply andb_true_iff in E. destruct E as [E _].
        apply Z.eqb_eq in E. lia. }
    split; [lia|]. nia.
  - apply orb_false_iff in E. destruct E as [E _].
    apply Z.ltb_ge in E. split; [lia|]. nia.
Qed.

(** What [fix_] does to a non-negative coefficient: nothing, or a rounding
    to exactly 50 digits with an error of at most half a unit. *)
Lemma fix_spec c e :
  0 <= c ->
  (fix_ (mkDecimal c e) = mkDecimal c e /\ c < 10 ^ 50)
  \/ (exists c' D,
        fix_ (mkDecimal c e) = mkDecimal c' (e + D)
        /\ 1 <= D /\ 10 ^ 49 <= c' < 10 ^ 50
        /\ 10 ^ 50 <= c
        /\ 2 * Z.abs (c' * 10 ^ D - c) <= 10 ^ D).
Proof.
  intros Hc. unfold fix_. cbn [coeff expo]. unfold prec.
  destruct (Z.leb_spec (ndigits c) 50) as [Hle|Hgt].
  - left. split; [reflexivity|].
    destruct (Z.eq_dec c 0) as [->|Hne]; [reflexivity|].
    destruct (ndigits_spec c ltac:(lia)) as [_ [_ H]].
    assert (10 ^ ndigits c <= 10 ^ 50) by (apply Z.pow_le_mono_r; lia).
    lia.
  - right.
    assert (Hpos : 0 < c).
    { destruct (Z.eq_dec c 0) as [->|]; [simpl in Hgt; lia|lia]. }
    destruct (ndigits_spec c Hpos) as [_ [Hlo Hhi]].
    remember (ndigits c) as n eqn:En. clear En.
    remember (n - 50) as d eqn:Ed.
    assert (Hd : 1 <= d) by lia.
    assert (Hp : 0 < 10 ^ d) by (apply Z.pow_pos_nonneg; lia).
    rewrite (Z.abs_eq c) by lia.
    destruct (round_half_even_spec c d ltac:(lia) ltac:(lia)) as [[Hq1 Hq2] Herr].
    remember (round_half_even c d) as q eqn:Eq. clear Eq.
    assert (Hn1 : 10 ^ (n - 1) = 10 ^ 49 * 10 ^ d).
    { rewrite <- Z.pow_add_r by lia. f_equal. lia. }
    assert (Hn2 : 10 ^ n = 10 ^ 50 * 10 ^ d).
    { rewrite <- Z.pow_add_r by lia. f_equal. lia. }
    assert (Hdiv1 : 10 ^ 49 <= c / 10 ^ d).
    { apply Z.div_le_lower_bound; lia. }
    assert (Hdiv2 : c / 10 ^ d < 10 ^ 50).
    { apply Z.div_lt_upper_bound; lia. }
    assert (Hc50 : 10 ^ 50 <= c).
    { assert (10 ^ 50 <= 10 ^ (n - 1)) by (apply Z.pow_le_mono_r; lia). lia. }
    replace (Z.sgn c) with 1 by (symmetry; apply Z.sgn_pos; lia).
    destruct (Z.ltb_spec 50 (ndigits q)) as [Hbig|Hsmall].
    + assert (Hq : q = 10 ^ 50).
      { destruct (Z.lt_ge_cases q (10 ^ 50)) as [Hlt|Hge]; [|lia].
        pose proof (ndigits_le q 50 ltac:(lia) Hlt). lia. }
      exists (10 ^ 49), (d + 1). rewrite Hq.
      replace (10 ^ 50 / 10) with (10 ^ 49) by reflexivity.
      rewrite Z.mul_1_l, Z.add_assoc.
      split; [reflexivity|].
      split; [clear -Hd; lia|]. split; [clear; lia|]. split; [exact Hc50|].
      rewrite Z.pow_add_r by (clear -Hd; lia).
      replace (10 ^ 49 * (10 ^ d * 10 ^ 1)) with (10 ^ 50 * 10 ^ d) by
        (change (10 ^ 50) with (10 ^ 49 * 10 ^ 1); ring).
      rewrite Hq in Herr. clear -Herr Hp. lia.
    + exists q, d.
      assert (q < 10 ^ 50).
      { destruct (ndigits_spec q ltac:(lia)) as [_ [_ H]].
        assert (10 ^ ndigits q <= 10 ^ 50) by (apply Z.pow_le_mono_r; lia).
        lia. }
      rewrite Z.mul_1_l.
      split; [reflexivity|]. repeat split; try assumption.
      clear - Hdiv1 Hq1. lia.
Qed.

Lemma abs_scale_le x y S P :
  0 < P -> Z.abs (x * P - y * P) <= S * P -> Z.abs (x - y) <= S.
Proof.
  intros HP H.
  replace (x * P - y * P) with ((x - y) * P) in H by ring.
  rewrite Z.abs_mul, (Z.abs_eq P) in H by lia.
  apply Z.mul_le_mono_pos_r in H; assumption.
Qed.

Lemma round_then_divide_error c q num S P :
  0 < S -> 2 <= P ->
  2 * Z.abs (c * P - q) <= P ->
  Z.abs (q * S - num) <= S ->
  Z.abs (c * P * S - num) <= P * S.
Proof.
  intros HS HP H1 H2.
  assert (H3 : 2 * Z.abs ((c * P - q) * S) <= P * S).
  { rewrite Z.abs_mul, (Z.abs_eq S) by lia.
    rewrite Z.mul_assoc. apply Z.mul_le_mono_nonneg_r; lia. }
  replace (c * P * S - num) with ((c * P - q) * S + (q * S - num)) by ring.
  pose proof (Z.abs_triangle ((c * P - q) * S) (q * S - num)) as Ht.
  assert (2 * S <= P * S) by (apply Z.mul_le_mono_nonneg_r; lia).
  lia.
Qed.

(** The 50-digit quotient of two positive integers [f <= S]: a 50-digit
    coefficient at an exponent [-k <= -49], within one unit of the exact
    quotient. *)
Lemma div_spec f S :
  1 <= f <= S ->
  exists c k,
    Dec.div (of_int f) (of_int S) = mkDecimal c (- k)
    /\ 49 <= k /\ 10 ^ 49 <= c < 10 ^ 50
    /\ Z.abs (c * S - f * 10 ^ k) <= S.
Proof.
  intros [Hf HfS]. unfold Dec.div, of_int. cbn [coeff expo]. unfold prec.
  destruct (Z.eqb_spec S 0) as [|_]; [lia|].
  destruct (ndigits_spec f ltac:(lia)) as [Hnf1 [Hnf2 Hnf3]].
  destruct (ndigits_spec S ltac:(lia)) as [HnS1 [HnS2 HnS3]].
  assert (Hnn : ndigits f <= ndigits S).
  { apply ndigits_le; lia. }
  remember (ndigits f) as nf eqn:Enf. clear Enf.
  remember (ndigits S) as nS eqn:EnS. clear EnS.
  remember (nS - nf + 50 + 1) as shift eqn:Es.
  assert (Hshift : 51 <= shift) by lia.
  destruct (Z.leb_spec 0 shift) as [_|]; [|lia].
  rewrite (Z.abs_eq f), (Z.abs_eq S) by lia.
  replace (Z.sgn f) with 1 by (symmetry; apply Z.sgn_pos; lia).
  replace (Z.sgn S) with 1 by (symmetry; apply Z.sgn_pos; lia).
  rewrite !Z.mul_1_l.
  assert (Hps : 0 < 10 ^ shift) by (apply Z.pow_pos_nonneg; lia).
  assert (Hnum : 10 ^ 50 * S <= f * 10 ^ shift).
  { assert (E : 10 ^ (nf - 1) * 10 ^ shift = 10 ^ 50 * 10 ^ nS).
    { rewrite <- !Z.pow_add_r by lia. f_equal. lia. }
    assert (10 ^ 50 * S <= 10 ^ 50 * 10 ^ nS)
      by (apply Z.mul_le_mono_nonneg_l; lia).
    assert (10 ^ (nf - 1) * 10 ^ shift <= f * 10 ^ shift)
      by (apply Z.mul_le_mono_nonneg_r; lia).
    lia. }
  remember (f * 10 ^ shift) as num eqn:Enum.
  pose proof (Z.div_mod num S ltac:(lia)) as Hdm.
  pose proof (Z.mod_pos_bound num S ltac:(lia)) as Hmb.
  assert (Hq0 : 10 ^ 50 <= num / S).
  { apply Z.div_le_lower_bound; lia. }
  remember (num / S) as q0 eqn:Eq0. clear Eq0.
  remember (num mod S) as r eqn:Er. clear Er.
  remember (if negb (r =? 0) && (q0 mod 5 =? 0) then q0 + 1 else q0)
    as q' eqn:Eq'.
  assert (Hq' : 10 ^ 50 <= q' /\ Z.abs (q' * S - num) <= S).
  { destruct (negb (r =? 0) && (q0 mod 5 =? 0)); subst q'; split; lia. }
  clear Eq'. destruct Hq' as [Hq'1 Hq'2].
  destruct (fix_spec q' (0 - 0 - shift) ltac:(lia))
    as [[_ Hlt] | (c & D & Hfix & HD & Hc & _ & Herr)]; [lia|].
  assert (HP : 0 < 10 ^ D) by (apply Z.pow_pos_nonneg; lia).
  assert (HP2 : 2 <= 10 ^ D).
  { assert (10 ^ 1 <= 10 ^ D) by (apply Z.pow_le_mono_r; lia). lia. }
  pose proof (round_then_divide_error c q' num S (10 ^ D)
                ltac:(lia) HP2 Herr Hq'2) as Hall.
  assert (Hk : 49 <= shift - D).
  { destruct (Z.le_gt_cases 49 (shift - D)) as [|Hsmall]; [assumption|].
    exfalso.
    assert (H1 : 10 ^ shift <= 10 ^ 48 * 10 ^ D).
    { rewrite <- Z.pow_add_r by lia. apply Z.pow_le_mono_r; lia. }
    assert (H2 : num <= S * (10 ^ 48 * 10 ^ D)).
    { subst num. apply Z.mul_le_mono_nonneg; lia. }
    assert (H3 : 10 ^ 49 * (10 ^ D * S) <= c * (10 ^ D * S)).
    { apply Z.mul_le_mono_nonneg_r; [|lia]. apply Z.mul_nonneg_nonneg; lia. }
    remember (10 ^ D * S) as PS eqn:EPS.
    assert (0 < PS) by (subst PS; apply Z.mul_pos_pos; lia).
    replace (c * 10 ^ D * S) with (c * PS) in Hall by (subst PS; ring).
    replace (S * (10 ^ 48 * 10 ^ D)) with (10 ^ 48 * PS) in H2
      by (subst PS; ring).
    clear - Hall H2 H3 H. lia. }
  exists c, (shift - D).
  split; [rewrite Hfix; f_equal; lia|].
  split; [assumption|]. split; [assumption|].
  apply (abs_scale_le _ _ _ (10 ^ D) HP).
  replace (f * 10 ^ (shift - D) * 10 ^ D) with num.
  2:{ subst num. rewrite <- Z.mul_assoc, <- Z.pow_add_r by lia.
      do 2 f_equal. lia. }
  replace (c * S * 10 ^ D) with (c * 10 ^ D * S) by ring.
  rewrite (Z.mul_comm S). exact Hall.
Qed.

(** If [B / K] approximates [T / S] to within less than [1 / S], the two
    integer parts agree, except that an exact quotient may be missed from
    below. *)
Lemma floor_close B K T S :
  0 < S -> 0 < K -> Z.abs (B * S - T * K) < K ->
  T / S - 1 <= B / K <= T / S /\ (T mod S <> 0 -> B / K = T / S).
Proof.
  intros HS HK Habs.
  pose proof (Z.div_mod T S ltac:(lia)) as Hdm.
  pose proof (Z.mod_pos_bound T S HS) as Hmb.
  remember (T / S) as n eqn:En. clear En.
  remember (T mod S) as rho eqn:Er. clear Er.
  assert (Hup : B / K <= n).
  { apply Z.lt_succ_r. apply Z.div_lt_upper_bound; [assumption|].
    apply (Z.mul_lt_mono_pos_r S); [assumption|].
    assert (rho * K <= (S - 1) * K) by (apply Z.mul_le_mono_nonneg_r; lia).
    subst T. nia. }
  assert (Hlow : n - 1 <= B / K).
  { apply Z.div_le_lower_bound; [assumption|].
    apply (Z.mul_le_mono_pos_r _ _ S); [assumption|].
    assert (0 <= rho * K) by (apply Z.mul_nonneg_nonneg; lia).
    subst T. nia. }
  split; [lia|].
  intros Hrho.
  assert (n <= B / K); [|lia].
  apply Z.div_le_lower_bound; [assumption|].
  apply (Z.mul_le_mono_pos_r _ _ S); [assumption|].
  assert (1 * K <= rho * K) by (apply Z.mul_le_mono_nonneg_r; lia).
  subst T. nia.
Qed.

(** The truncated decimal share against the exact floor. *)
Lemma reward_amount_close S total f :
  1 <= f <= S -> 0 <= total -> total * S <= 10 ^ 48 ->
  (f * total) / S - 1 <= reward_amount S total f <= (f * total) / S
  /\ ((f * total) mod S <> 0 -> reward_amount S total f = (f * total) / S).
Proof.
  intros Hf Ht Hbound. unfold reward_amount.
  destruct (div_spec f S Hf) as (c & k & Hdiv & Hk & Hc & Herr).
  rewrite Hdiv. unfold Dec.mul, of_int. cbn [coeff expo].
  assert (HK : 10 ^ 49 <= 10 ^ k) by (apply Z.pow_le_mono_r; lia).
  assert (HS : 0 < S) by lia.
  assert (HA : Z.abs (c * total * S - f * total * 10 ^ k) <= total * S).
  { replace (c * total * S - f * total * 10 ^ k)
      with ((c * S - f * 10 ^ k) * total) by ring.
    rewrite Z.abs_mul, (Z.abs_eq total), (Z.mul_comm total S) by lia.
    apply Z.mul_le_mono_nonneg_r; assumption. }
  destruct (fix_spec (c * total) (- k + 0) ltac:(nia))
    as [[Hfix Hlt] | (c2 & D & Hfix & HD & Hc2 & Hbig & Herr2)];
    rewrite Hfix; unfold Dec.to_int; cbn [coeff expo].
  - destruct (Z.leb_spec 0 (- k + 0)) as [|_]; [lia|].
    replace (- (- k + 0)) with k by lia.
    rewrite Z.quot_div_nonneg by nia.
    apply floor_close; [assumption|lia|].
    change (10 ^ 48) with 1000000000000000000000000000000000000000000000000 in *.
    change (10 ^ 49) with 10000000000000000000000000000000000000000000000000 in *.
    lia.
  - assert (HP : 0 < 10 ^ D) by (apply Z.pow_pos_nonneg; lia).
    assert (Htpos : 0 < total) by nia.
    assert (Hval : (if 0 <=? - k + 0 + D then c2 * 10 ^ (- k + 0 + D)
                    else Z.quot c2 (10 ^ (- (- k + 0 + D))))
                   = (c2 * 10 ^ D) / 10 ^ k).
    { destruct (Z.leb_spec 0 (- k + 0 + D)) as [Hge|Hlt].
      - replace (10 ^ D) with (10 ^ (- k + 0 + D) * 10 ^ k).
        2:{ rewrite <- Z.pow_add_r by lia. f_equal. lia. }
        rewrite Z.mul_assoc, Z.div_mul by lia. reflexivity.
      - rewrite Z.quot_div_nonneg by (try apply Z.pow_pos_nonneg; lia).
        replace (10 ^ k) with (10 ^ (- (- k + 0 + D)) * 10 ^ D).
        2:{ rewrite <- Z.pow_add_r by lia. f_equal. lia. }
        rewrite Z.div_mul_cancel_r; [reflexivity| |lia].
        apply Z.pow_nonzero; lia. }
    rewrite Hval. apply floor_close; [assumption|lia|].
    assert (H1 : 2 * Z.abs ((c2 * 10 ^ D - c * total) * S) <= 10 ^ D * S).
    { rewrite Z.abs_mul, (Z.abs_eq S) by lia.
      rewrite Z.mul_assoc. apply Z.mul_le_mono_nonneg_r; lia. }
    replace (c2 * 10 ^ D * S - f * total * 10 ^ k)
      with ((c2 * 10 ^ D - c * total) * S
            + (c * total * S - f * total * 10 ^ k)) by ring.
    pose proof (Z.abs_triangle ((c2 * 10 ^ D - c * total) * S)
                  (c * total * S - f * total * 10 ^ k)) as Htri.
    assert (H2 : (2 * 10 ^ 49 - 1) * (10 ^ D * S) < 2 * 10 ^ 98).
    { assert (Ha : (2 * 10 ^ 49 - 1) * 10 ^ D <= 2 * (c * total)).
      { assert (10 ^ 49 * 10 ^ D <= c2 * 10 ^ D)
          by (apply Z.mul_le_mono_nonneg_r; lia).
        lia. }
      assert (Hb : c * total < 10 ^ 50 * total)
        by (apply Z.mul_lt_mono_pos_r; lia).
      assert (Hc' : (2 * 10 ^ 49 - 1) * 10 ^ D * S < 2 * 10 ^ 50 * total * S).
      { apply Z.mul_lt_mono_pos_r; lia. }
      assert (Hd : 2 * 10 ^ 50 * (total * S) <= 2 * 10 ^ 50 * 10 ^ 48).
      { apply Z.mul_le_mono_nonneg_l; lia. }
      change (2 * 10 ^ 98) with (2 * 10 ^ 50 * 10 ^ 48). lia. }
    remember (10 ^ D * S) as x eqn:Ex. clear Ex.
    remember (total * S) as y eqn:Ey. clear Ey.
    remember (Z.abs ((c2 * 10 ^ D - c * total) * S)) as u eqn:Eu. clear Eu.
    remember (Z.abs (c * total * S - f * total * 10 ^ k)) as v eqn:Ev.
    clear Ev.
    clear - H1 H2 HA Htri Hbound HK.
    change (10 ^ 48) with 1000000000000000000000000000000000000000000000000 in *.
    change (10 ^ 49) with 10000000000000000000000000000000000000000000000000 in *.
    change (10 ^ 98) with 100000000000000000000000000000000000000000000000000000000000000000000000000000000000000000000000000 in *.
    lia.
Qed.

(* ================================================================== *)
(** ** PhiConsensus: the operations one by one *)
(* ================================================================== *)

Section EngineFacts.

Variable dec_pow : Decimal -> Z -> Decimal.

(** *** Leader selection *)

Lemma active_of_empty st : validators st = [] -> active_validators st = [].
Proof. unfold active_validators. intros ->. reflexivity. Qed.

Lemma selection_index_in_range (active : list Validator) h :
  active <> [] ->
  0 <= fibonacci (h mod len active) mod len active < len active.
Proof.
  intros Hne. apply Z.mod_pos_bound.
  unfold len. destruct active; [congruence|simpl; lia].
Qed.

(** [select_leader] read off the active list alone. *)
Lemma select_leader_unfold st h :
  select_leader dec_pow st h =
  match active_validators st with
  | [] => (None, st)
  | first :: _ =>
      if Dec.is_zero (total_priority dec_pow (active_validators st) h)
      then (Some first, st)
      else
        let idx := fibonacci (h mod len (active_validators st))
                   mod len (active_validators st) in
        match nth_error (active_validators st) (Z.to_nat idx) with
        | Some selected => (Some selected, with_leader st idx)
        | None => (None, st)
        end
  end.
Proof.
  unfold select_leader.
  destruct (validators st) eqn:E; [|reflexivity].
  rewrite (active_of_empty st E). reflexivity.
Qed.

Lemma selected_exists (active : list Validator) h :
  active <> [] ->
  exists v,
    nth_error active
      (Z.to_nat (fibonacci (h mod len active) mod len active)) = Some v.
Proof.
  intros Hne. pose proof (selection_index_in_range active h Hne) as Hr.
  destruct (nth_error active _) as [v|] eqn:E; [now exists v|].
  apply nth_error_None in E. unfold len in *. lia.
Qed.

(** When the Fibonacci number of [h mod 100] vanishes every priority is
    zero, whatever the stakes, weights and scores. *)
Lemma priority_zero_when_fib_zero v h :
  fibonacci (h mod 100) = 0 -> coeff (get_priority_score dec_pow v h) = 0.
Proof.
  intros Hf. unfold get_priority_score. rewrite Hf.
  apply mul_zero_l, mul_zero_r. reflexivity.
Qed.

Lemma total_priority_zero_when_fib_zero active h :
  fibonacci (h mod 100) = 0 -> Dec.is_zero (total_priority dec_pow active h) = true.
Proof.
  intros Hf. unfold Dec.is_zero, total_priority.
  assert (Hgen : forall l acc, coeff acc = 0 ->
    coeff (fold_left
             (fun acc v => Dec.add acc (get_priority_score dec_pow v h))
             l acc) = 0).
  { induction l as [|v l IH]; intros acc Hacc; simpl; [assumption|].
    apply IH, add_zero; [assumption|].
    now apply priority_zero_when_fib_zero. }
  rewrite Hgen; reflexivity.
Qed.

(** At every height divisible by 100 the guard on the total priority
    fires. *)
Lemma total_priority_zero_at_hundreds active h :
  h mod 100 = 0 -> Dec.is_zero (total_priority dec_pow active h) = true.
Proof.
  intros Hh. apply total_priority_zero_when_fib_zero. now rewrite Hh.
Qed.

(** *** Effects of the operations on the state *)

Lemma add_validator_duplicate st addr pk stk idx :
  dict_mem addr (validators st) = true ->
  add_validator dec_pow st addr pk stk idx = (false, st).
Proof.
  intros H. unfold add_validator. rewrite H. reflexivity.
Qed.

Lemma add_validator_fresh st addr pk stk idx :
  dict_mem addr (validators st) = false ->
  add_validator dec_pow st addr pk stk idx =
  (true,
   with_validators st
     (validators st ++
      [(addr,
        mkValidator addr pk stk
          (dec_pow (golden_ratio 10)
             (match idx with Some i => i | None => len (validators st) end))
          (match idx with Some i => i | None => len (validators st) end)
          true 0 one)])).
Proof.
  intros H. unfold add_validator. rewrite H.
  rewrite dict_set_fresh; [reflexivity|].
  unfold dict_mem in H. destruct (dict_get addr (validators st)); congruence.
Qed.

Lemma select_leader_validators st h :
  validators (snd (select_leader dec_pow st h)) = validators st.
Proof.
  rewrite select_leader_unfold.
  destruct (active_validators st); [reflexivity|].
  destruct (Dec.is_zero _); [reflexivity|].
  cbv zeta. destruct (nth_error _ _); reflexivity.
Qed.

Lemma select_leader_round st h :
  round_number st <= round_number (snd (select_leader dec_pow st h)).
Proof.
  rewrite select_leader_unfold.
  destruct (active_validators st); [simpl; lia|].
  destruct (Dec.is_zero _); [simpl; lia|].
  cbv zeta. destruct (nth_error _ _); simpl; lia.
Qed.

Lemma update_performance_round st p b now :
  round_number (_update_validator_performance st p b now) = round_number st.
Proof.
  unfold _update_validator_performance.
  destruct (dict_get p (validators st)); reflexivity.
Qed.

(** [validate_block] either rejects and returns the state it was given,
    or accepts and applies the success update to the proposer. *)
Lemma validate_block_outcome st b p now :
  validate_block st b p now = (false, st)
  \/ validate_block st b p now
     = (true, _update_validator_performance st p true now).
Proof.
  unfold validate_block.
  destruct (dict_get p (validators st)) as [v|]; [|now left].
  destruct (negb (is_active v)); [now left|].
  destruct (negb (_verify_fibonacci_proof _ b)); [now left|].
  destruct (negb (_verify_golden_hash b)); [now left|].
  destruct (negb (_verify_signature b _)); [now left|].
  now right.
Qed.

Lemma exec_round st op : round_number st <= round_number (exec dec_pow st op).
Proof.
  destruct op as [addr pk stk idx|h|b p now|n|h t]; simpl; try lia.
  - unfold add_validator.
    destruct (dict_mem addr (validators st)); simpl; lia.
  - apply select_leader_round.
  - destruct (validate_block_outcome st b p now) as [-> | ->]; simpl;
      [lia|]. rewrite update_performance_round. lia.
Qed.

Lemma run_round ops : forall st, round_number st <= round_number (run dec_pow ops st).
Proof.
  induction ops as [|op ops IH]; intros st; simpl; [lia|].
  etransitivity; [apply (exec_round st op)|apply IH].
Qed.

(** *** Invariants of reachable states *)

Lemma reachable_invariant (P : PhiConsensus -> Prop) :
  (forall nid, P (init nid)) ->
  (forall st op, P st -> P (exec dec_pow st op)) ->
  forall st, reachable dec_pow st -> P st.
Proof.
  intros Hinit Hstep st [nid [ops ->]].
  assert (Hgen : forall ops st0, P st0 -> P (run dec_pow ops st0)).
  { clear -Hstep. induction ops as [|op ops IH]; intros st0 H0; simpl; auto. }
  apply Hgen, Hinit.
Qed.

Lemma update_performance_ok st p b now :
  registry_ok st -> registry_ok (_update_validator_performance st p b now).
Proof.
  intros [Hnd Haddr]. unfold _update_validator_performance.
  destruct (dict_get p (validators st)) as [v|] eqn:E; [|now split].
  split; simpl.
  - rewrite dict_set_keys_present by congruence. assumption.
  - apply dict_set_Forall; [assumption|]. simpl.
    apply dict_get_in in E. rewrite Forall_forall in Haddr.
    apply (Haddr _ E).
Qed.

Lemma exec_ok st op : registry_ok st -> registry_ok (exec dec_pow st op).
Proof.
  intros Hok.
  destruct op as [addr pk stk idx|h|b p now|n|h t]; simpl; try assumption.
  - destruct (dict_mem addr (validators st)) eqn:E.
    + rewrite add_validator_duplicate by assumption. assumption.
    + rewrite add_validator_fresh by assumption. destruct Hok as [Hnd Ha].
      split; simpl.
      * unfold keys in *. rewrite map_app. simpl.
        rewrite <- (rev_involutive (map fst (validators st) ++ [addr])).
        apply NoDup_rev. rewrite rev_app_distr. simpl.
        constructor.
        -- rewrite <- in_rev. intros Hin.
           apply (proj2 (dict_mem_in addr (validators st))) in Hin.
           congruence.
        -- now apply NoDup_rev.
      * apply Forall_app. split; [assumption|].
        constructor; [reflexivity|constructor].
  - destruct Hok as [Hnd Ha]. split; rewrite select_leader_validators;
      assumption.
  - destruct (validate_block_outcome st b p now) as [-> | ->]; simpl;
      [assumption|]. now apply update_performance_ok.
Qed.

Lemma reachable_registry_ok st : reachable dec_pow st -> registry_ok st.
Proof.
  apply reachable_invariant.
  - intros nid. split; simpl; constructor.
  - apply exec_ok.
Qed.

Lemma exec_scores_bounded st op :
  scores_bounded st -> scores_bounded (exec dec_pow st op).
Proof.
  unfold scores_bounded. intros Hb.
  destruct op as [addr pk stk idx|h|b p now|n|h t]; simpl; try assumption.
  - destruct (dict_mem addr (validators st)) eqn:E.
    + rewrite add_validator_duplicate by assumption. assumption.
    + rewrite add_validator_fresh by assumption. simpl.
      apply Forall_app. split; [assumption|].
      constructor; [reflexivity|constructor].
  - rewrite select_leader_validators. assumption.
  - destruct (validate_block_outcome st b p now) as [-> | ->]; simpl;
      [assumption|].
    unfold _update_validator_performance.
    destruct (dict_get p (validators st)) as [v|]; [|assumption].
    simpl. apply dict_set_Forall; [assumption|]. simpl.
    apply min_le_one.
Qed.

Lemma reachable_scores_bounded st : reachable dec_pow st -> scores_bounded st.
Proof.
  apply reachable_invariant.
  - intros nid. constructor.
  - apply exec_scores_bounded.
Qed.

End EngineFacts.

(* ================================================================== *)
(** ** The claims *)
(* ================================================================== *)

Section Claims.

Variable dec_pow : Decimal -> Z -> Decimal.

(** C1, as amended.  For every registry and block height [h]:
    [select_leader] returns none exactly when there is no active
    validator; otherwise, with [active] the active validators in registry
    insertion order and [N] their number, it returns the validator at
    position [fibonacci (h mod N) mod N] of [active] when the summed
    priority at [h] is non-zero, and the first validator of [active] when
    the summed priority is zero, which it is at every height divisible by
    100. *)
Theorem select_leader_position st h :
  let active := active_validators st in
  let N := len active in
  (fst (select_leader dec_pow st h) = None <-> active = [])
  /\ (active <> [] ->
      Dec.is_zero (total_priority dec_pow active h) = false ->
      exists v,
        nth_error active (Z.to_nat (fibonacci (h mod N) mod N)) = Some v
        /\ fst (select_leader dec_pow st h) = Some v)
  /\ (active <> [] ->
      Dec.is_zero (total_priority dec_pow active h) = true ->
      exists v,
        hd_error active = Some v
        /\ fst (select_leader dec_pow st h) = Some v)
  /\ (h mod 100 = 0 ->
      Dec.is_zero (total_priority dec_pow active h) = true).
Proof.
  intros active N. subst N. rewrite select_leader_unfold. fold active.
  assert (Hhundred : h mod 100 = 0 ->
                     Dec.is_zero (total_priority dec_pow active h) = true)
    by apply total_priority_zero_at_hundreds.
  destruct active as [|first rest] eqn:E.
  - split; [split; reflexivity|]. repeat split; congruence.
  - rewrite <- E in *.
    destruct (selected_exists active h) as [v Hv]; [congruence|].
    split; [|split; [|split]].
    + split; [|rewrite E; discriminate].
      destruct (Dec.is_zero _); [discriminate|].
      cbv zeta. rewrite Hv. discriminate.
    + intros _ Hz. rewrite Hz. cbv zeta. rewrite Hv. exists v. auto.
    + intros _ Hz. rewrite Hz. exists first. rewrite E. auto.
    + exact Hhundred.
Qed.

(** C2, as amended.  The list that backs [select_leader],
    [get_validator_rotation_schedule] and [calculate_rewards] is the list
    of active validators in registry insertion order: a successful
    [add_validator] puts the new validator last, and no operation reorders
    the addresses already there.  The leader, the schedule and the rewards
    are functions of that ordered list and the arguments: two registry
    states with the same ordered active list give the same results. *)
Theorem active_list_insertion_order :
  (forall st addr pk stk idx st',
      add_validator dec_pow st addr pk stk idx = (true, st') ->
      exists v, address v = addr
                /\ active_validators st' = active_validators st ++ [v])
  /\ (forall st op, exists new,
        map address (active_validators (exec dec_pow st op))
        = map address (active_validators st) ++ new)
  /\ (forall st1 st2 h n t,
        active_validators st1 = active_validators st2 ->
        fst (select_leader dec_pow st1 h) = fst (select_leader dec_pow st2 h)
        /\ get_validator_rotation_schedule st1 n
           = get_validator_rotation_schedule st2 n
        /\ calculate_rewards st1 h t = calculate_rewards st2 h t).
Proof.
  split; [|split].
  - intros st addr pk stk idx st' H.
    destruct (dict_mem addr (validators st)) eqn:E.
    + rewrite add_validator_duplicate in H by assumption. discriminate.
    + rewrite add_validator_fresh in H by assumption.
      injection H as <-. eexists. split; [|].
      2:{ unfold active_validators, values. simpl.
          rewrite map_app, filter_app. simpl. reflexivity. }
      reflexivity.
  - intros st op.
    destruct op as [addr pk stk idx|h|b p now|n|h t]; simpl;
      try (exists []; now rewrite app_nil_r).
    + destruct (dict_mem addr (validators st)) eqn:E.
      * rewrite add_validator_duplicate by assumption.
        exists []. now rewrite app_nil_r.
      * rewrite add_validator_fresh by assumption.
        unfold active_validators, values. simpl.
        rewrite map_app, filter_app, map_app. simpl. eauto.
    + exists []. rewrite app_nil_r. unfold active_validators.
      now rewrite select_leader_validators.
    + exists []. rewrite app_nil_r.
      destruct (validate_block_outcome st b p now) as [-> | ->];
        [reflexivity|]. simpl.
      unfold _update_validator_performance.
      destruct (dict_get p (validators st)) as [v|] eqn:E; [|reflexivity].
      unfold active_validators. simpl.
      revert E. generalize (validators st) as d.
      induction d as [|[k w] d IH]; simpl; [discriminate|].
      destruct (String.eqb p k); intros Hget; simpl.
      * injection Hget as ->. destruct (is_active v); reflexivity.
      * destruct (is_active w); simpl; rewrite IH by assumption;
          reflexivity.
  - intros st1 st2 h n t Heq. split; [|split].
    + rewrite !select_leader_unfold, Heq.
      destruct (active_validators st2); [reflexivity|].
      destruct (Dec.is_zero _); [reflexivity|].
      cbv zeta. destruct (nth_error _ _); reflexivity.
    + unfold get_validator_rotation_schedule. now rewrite Heq.
    + unfold calculate_rewards. now rewrite Heq.
Qed.

(** C3, as amended.  A call to [select_leader] that returns a leader
    while the summed priority is non-zero increments [round_number] by
    exactly one and sets [current_leader_index] to the selected index, the
    position of the returned leader; a call made while the summed priority
    is zero returns its leader and leaves the state as it was.
    [round_number] never decreases across any sequence of engine
    operations. *)
Theorem select_leader_round_number :
  (forall st h v st',
      select_leader dec_pow st h = (Some v, st') ->
      let active := active_validators st in
      let idx := fibonacci (h mod len active) mod len active in
      (Dec.is_zero (total_priority dec_pow active h) = false ->
         round_number st' = round_number st + 1
         /\ current_leader_index st' = idx
         /\ nth_error active (Z.to_nat idx) = Some v
         /\ validators st' = validators st)
      /\ (Dec.is_zero (total_priority dec_pow active h) = true ->
          st' = st))
  /\ (forall ops st, round_number st <= round_number (run dec_pow ops st)).
Proof.
  split; [|intros ops st; apply run_round].
  intros st h v st' H active idx. subst idx.
  rewrite select_leader_unfold in H. fold active in H.
  destruct active as [|first rest] eqn:E; [discriminate|].
  rewrite <- E in *.
  destruct (Dec.is_zero _) eqn:Hz.
  - split; [discriminate|]. intros _. congruence.
  - split; [|discriminate]. intros _. cbv zeta in H.
    destruct (nth_error active _) as [w|] eqn:Hn; [|discriminate].
    injection H as <- <-. simpl. auto.
Qed.

(** C4, as amended.  For every total and every [count >= 1] the shares
    of [fibonacci_distribution total count] sum exactly to [total], the
    truncation leftover being added entirely to slot 0.  Consequently, for
    every well-formed registry with a non-empty active list,
    the values of [calculate_rewards height total_reward] sum exactly to
    [total_reward], and the leftover goes to the first active validator in
    registry insertion order. *)
Theorem rewards_conserved :
  (forall total count,
      1 <= count ->
      let fibs := fibonacci_sequence 1 count in
      let shares := map (reward_amount (sum fibs) total) fibs in
      sum (fibonacci_distribution total count) = total
      /\ fibonacci_distribution total count
         = (hd 0 shares + (total - sum shares)) :: tl shares)
  /\ (forall st h total,
        registry_ok st ->
        active_validators st <> [] ->
        let fibs := fibonacci_sequence 1 (len (active_validators st)) in
        let shares := map (reward_amount (sum fibs) total) fibs in
        sum (values (calculate_rewards st h total)) = total
        /\ exists first,
             hd_error (active_validators st) = Some first
             /\ dict_get (address first) (calculate_rewards st h total)
                = Some (hd 0 shares + (total - sum shares))).
Proof.
  split.
  - intros total count Hc fibs shares. split.
    + now apply fibonacci_distribution_sum.
    + now apply fibonacci_distribution_unfold.
  - intros st h total Hok Hne fibs shares.
    rewrite (calculate_rewards_positional st h total Hok).
    assert (Hc : 1 <= len (active_validators st)).
    { unfold len. destruct (active_validators st); [congruence|simpl; lia]. }
    pose proof (fibonacci_distribution_length total
                  (len (active_validators st))) as Hl.
    split.
    + rewrite values_combine.
      * now apply fibonacci_distribution_sum.
      * rewrite length_map. unfold len in *. lia.
    + rewrite (fibonacci_distribution_unfold total _ Hc).
      fold fibs. fold shares.
      destruct (active_validators st) as [|first rest]; [congruence|].
      exists first. split; [reflexivity|].
      simpl. rewrite String.eqb_refl. reflexivity.
Qed.

(** C5, as amended.  For every total, [count >= 1] and slot [i] in
    [1, count), the i-th share of [fibonacci_distribution total count] is
    the integer part of the 50-digit decimal product of [total] and the
    50-digit decimal quotient [F(i+1) / (F(1) + ... + F(count))]; slot 0
    receives its share computed the same way plus the leftover.  Whenever
    [total >= 0] and [total * (F(1) + ... + F(count)) <= 10^48], the i-th
    share is [floor(F(i+1) * total / (F(1) + ... + F(count)))] or one less,
    and it is exactly that floor when the division leaves a remainder. *)
Theorem distribution_slot_share total count :
  1 <= count ->
  let total_fib := sum (fibonacci_sequence 1 count) in
  let share f :=
    Dec.to_int (Dec.mul (Dec.div (of_int f) (of_int total_fib))
                        (of_int total)) in
  (forall i, 1 <= i < count ->
     nth (Z.to_nat i) (fibonacci_distribution total count) 0
     = share (fibonacci (i + 1)))
  /\ nth 0 (fibonacci_distribution total count) 0
     = share (fibonacci 1)
       + (total - sum (map share (fibonacci_sequence 1 count)))
  /\ (0 <= total -> total * total_fib <= 10 ^ 48 ->
      forall i, 1 <= i < count ->
        let exact := spec_floor_share total_fib total (fibonacci (i + 1)) in
        let got := nth (Z.to_nat i) (fibonacci_distribution total count) 0 in
        exact - 1 <= got <= exact
        /\ ((fibonacci (i + 1) * total) mod total_fib <> 0 -> got = exact)).
Proof.
  intros Hc total_fib share. split; [|split].
  - intros i Hi. now apply distribution_slot_decimal.
  - rewrite (fibonacci_distribution_unfold total count Hc).
    cbn [nth]. fold total_fib.
    change (reward_amount total_fib total) with share.
    unfold fibonacci_sequence. rewrite (range_cons 1 count Hc).
    reflexivity.
  - intros Ht Hb i Hi exact got. subst exact got.
    rewrite (distribution_slot_decimal total count i Hc Hi).
    unfold spec_floor_share. fold total_fib.
    apply reward_amount_close; try assumption.
    apply fibonacci_weight_bounds. lia.
Qed.

(** C6.  Calling [add_validator] with an address already present in the
    registry returns failure and leaves the whole engine state, hence the
    registry size and every field of every validator, unchanged. *)
Theorem add_validator_existing_address st addr pk stk idx :
  dict_mem addr (validators st) = true ->
  fst (add_validator dec_pow st addr pk stk idx) = false
  /\ snd (add_validator dec_pow st addr pk stk idx) = st.
Proof.
  intros H. rewrite add_validator_duplicate by assumption. auto.
Qed.

(** C7.  For every registered active proposer with score [old], a
    successful [validate_block] sets the proposer's [performance_score] to
    [min(old * 0.95 + 0.05, 1.0)] and [last_validated] to the current
    time; and in every state the engine can reach no [performance_score]
    exceeds [1.0]. *)
Theorem validate_block_success_score :
  (forall st b p now v,
      dict_get p (validators st) = Some v ->
      is_active v = true ->
      fst (validate_block st b p now) = true ->
      exists v',
        dict_get p (validators (snd (validate_block st b p now))) = Some v'
        /\ performance_score v'
           = Dec.min (Dec.add (Dec.mul (performance_score v)
                                       (mkDecimal 95 (-2)))
                              (mkDecimal 5 (-2)))
                     one
        /\ last_validated v' = now)
  /\ (forall st k v,
        reachable dec_pow st ->
        dict_get k (validators st) = Some v ->
        Dec.leb (performance_score v) one = true).
Proof.
  split.
  - intros st b p now v Hget Hact Hok.
    destruct (validate_block_outcome st b p now) as [H | H];
      rewrite H in *; [discriminate|]. simpl.
    unfold _update_validator_performance. rewrite Hget. simpl.
    rewrite dict_get_set_same. eexists. split; [reflexivity|]. auto.
  - intros st k v Hr Hget.
    pose proof (reachable_scores_bounded dec_pow st Hr) as Hb.
    unfold scores_bounded in Hb. rewrite Forall_forall in Hb.
    apply (Hb (k, v)). now apply dict_get_in.
Qed.

(** C8.  For every proposal and every proposer, registered and active or
    not, [validate_block] returns false whenever the proof's
    [fibonacci_number] differs from [fibonacci (height mod 1000)] or its
    [fibonacci_index] differs from [height mod 1000]. *)
Theorem validate_block_rejects_wrong_proof st b p now :
  proof_fibonacci_number (block_proof b)
    <> Some (fibonacci (block_height b mod 1000))
  \/ proof_fibonacci_index (block_proof b) <> Some (block_height b mod 1000) ->
  fst (validate_block st b p now) = false.
Proof.
  intros Hbad. unfold validate_block.
  destruct (dict_get p (validators st)) as [v|]; [|reflexivity].
  destruct (negb (is_active v)); [reflexivity|].
  fold (block_proof b).
  assert (Hv : _verify_fibonacci_proof (block_proof b) b = false).
  { unfold _verify_fibonacci_proof. fold (block_height b).
    destruct (proof_fibonacci_number (block_proof b)) as [pf|];
      [|reflexivity].
    destruct (Z.eqb_spec pf (fibonacci (block_height b mod 1000)))
      as [->|]; [|reflexivity]. simpl.
    destruct (proof_fibonacci_index (block_proof b)) as [pi|];
      [|reflexivity].
    destruct (Z.eqb_spec pi (block_height b mod 1000)) as [->|];
      [|reflexivity].
    destruct Hbad as [Hbad|Hbad]; congruence. }
  rewrite Hv. reflexivity.
Qed.

(** C9.  Whenever [validate_block] returns false the engine state is the
    one it was given, so the proposer's [performance_score] and
    [last_validated] keep their values.  No engine operation runs the
    decay branch: an operation leaves the registry as it was, or appends
    one validator with score [1.0], or is the success update
    [_update_validator_performance _ _ true _] of an accepted block. *)
Theorem failed_validation_changes_nothing :
  (forall st b p now,
      fst (validate_block st b p now) = false ->
      snd (validate_block st b p now) = st)
  /\ (forall st op,
        validators (exec dec_pow st op) = validators st
        \/ (exists addr v,
              validators (exec dec_pow st op) = validators st ++ [(addr, v)]
              /\ performance_score v = one)
        \/ (exists p now,
              exec dec_pow st op
              = _update_validator_performance st p true now)).
Proof.
  split.
  - intros st b p now H.
    destruct (validate_block_outcome st b p now) as [E | E];
      rewrite E in *; [reflexivity|discriminate].
  - intros st op.
    destruct op as [addr pk stk idx|h|b p now|n|h t]; simpl; auto.
    + destruct (dict_mem addr (validators st)) eqn:E.
      * rewrite add_validator_duplicate by assumption. auto.
      * rewrite add_validator_fresh by assumption. simpl.
        right. left. eauto.
    + left. apply select_leader_validators.
    + destruct (validate_block_outcome st b p now) as [-> | ->]; simpl;
        eauto.
Qed.

(** C10.  [calculate_rewards] does not depend on its block height: any
    two heights give the same reward mapping. *)
Theorem calculate_rewards_height_independent st total_reward h1 h2 :
  calculate_rewards st h1 total_reward = calculate_rewards st h2 total_reward.
Proof. reflexivity. Qed.


End Claims.

Lemma genesis_reachable : reachable pow_int genesis.
Proof. exists "phi-mainnet-1"%string, genesis_ops. reflexivity. Defined.


(* ================================================================== *)
(** ** The claims at concrete inputs *)
(* ================================================================== *)

(** C1 at the genesis registry: at height 1 the total priority is non-zero
    and the leader is the validator at position 1; at height 100 it is zero
    and the leader is the first validator. *)
Lemma select_leader_position_witness :
  (exists v,
      nth_error (active_validators genesis)
        (Z.to_nat (fibonacci (1 mod len (active_validators genesis))
                   mod len (active_validators genesis))) = Some v
      /\ fst (select_leader pow_int genesis 1) = Some v)
  /\ (exists v,
        hd_error (active_validators genesis) = Some v
        /\ fst (select_leader pow_int genesis 100) = Some v).
Proof.
  split.
  - apply (proj1 (proj2 (select_leader_position pow_int genesis 1))).
    + vm_compute. discriminate.
    + vm_compute. reflexivity.
  - apply (proj1 (proj2 (proj2 (select_leader_position pow_int genesis 100)))).
    + vm_compute. discriminate.
    + apply (proj2 (proj2 (proj2
               (select_leader_position pow_int genesis 100)))).
      reflexivity.
Defined.

(** C1 as stated fails.  In [registry_ba] the canonical list is [a; b] and
    position [fibonacci (1 mod 2) mod 2 = 1] holds [b], but the engine
    returns [a].  In the genesis registry, already in canonical order,
    position [fibonacci (100 mod 6) mod 6 = 3] holds validator 3, but at
    height 100 the engine returns validator 0. *)
Lemma select_leader_canonical_counterexample :
  (active_validators registry_ba <> []
   /\ fst (select_leader pow_int registry_ba 1)
      <> nth_error (spec_canonical_active_list registry_ba)
           (Z.to_nat (fibonacci (1 mod len (active_validators registry_ba))
                      mod len (active_validators registry_ba))))
  /\ (active_validators genesis <> []
      /\ fst (select_leader pow_int genesis 100)
         <> nth_error (spec_canonical_active_list genesis)
              (Z.to_nat (fibonacci (100 mod len (active_validators genesis))
                         mod len (active_validators genesis)))).
Proof.
  vm_compute. repeat split; discriminate.
Qed.

(** C2 at the registry [a; b]: registering [c] puts it last; and the
    genesis registry before and after a leader selection, two states with
    the same ordered active list, elect the same leader at height 7. *)
Lemma active_list_insertion_order_witness :
  (exists v,
      address v = "c"%string
      /\ active_validators
           (snd (add_validator pow_int registry_ab "c" "key_c" 10 None))
         = active_validators registry_ab ++ [v])
  /\ fst (select_leader pow_int genesis 7)
     = fst (select_leader pow_int (snd (select_leader pow_int genesis 1)) 7).
Proof.
  split.
  - apply (proj1 (active_list_insertion_order pow_int) registry_ab
                 "c"%string "key_c"%string 10 None).
    reflexivity.
  - apply (proj2 (proj2 (active_list_insertion_order pow_int))
                 genesis (snd (select_leader pow_int genesis 1)) 7 0 0).
    reflexivity.
Defined.

(** C2 as stated fails.  [registry_ab] and [registry_ba] hold the same two
    validators, so their canonical active lists agree; the list the engine
    iterates over in [registry_ba] is not the canonical one, and the two
    registries elect different leaders at height 1. *)
Lemma insertion_order_counterexample :
  spec_canonical_active_list registry_ab = spec_canonical_active_list registry_ba
  /\ active_validators registry_ba <> spec_canonical_active_list registry_ba
  /\ fst (select_leader pow_int registry_ab 1)
     <> fst (select_leader pow_int registry_ba 1).
Proof.
  vm_compute. repeat split; discriminate.
Qed.

(** C3 at the genesis registry: at height 1 the round advances and the
    leader index becomes 1; at height 100 the state stays as it was. *)
Lemma select_leader_round_number_witness :
  (round_number (snd (select_leader pow_int genesis 1))
   = round_number genesis + 1
   /\ current_leader_index (snd (select_leader pow_int genesis 1)) = 1)
  /\ snd (select_leader pow_int genesis 100) = genesis.
Proof.
  split.
  - destruct (select_leader pow_int genesis 1) as [[v|] st'] eqn:E;
      [|vm_compute in E; discriminate E].
    destruct (proj1 (select_leader_round_number pow_int) genesis 1 v st' E)
      as [H _].
    destruct H as (Hr & Hi & _); [vm_compute; reflexivity|].
    cbn [snd]. split; [exact Hr|]. rewrite Hi. vm_compute. reflexivity.
  - destruct (select_leader pow_int genesis 100) as [[v|] st'] eqn:E;
      [|vm_compute in E; discriminate E].
    destruct (proj1 (select_leader_round_number pow_int) genesis 100 v st' E)
      as [_ H].
    cbn [snd]. apply H. vm_compute. reflexivity.
Defined.

(** C3 as stated fails: at height 100 the genesis registry returns a
    leader and [round_number] stays where it was. *)
Lemma select_leader_round_counterexample :
  fst (select_leader pow_int genesis 100) <> None
  /\ round_number (snd (select_leader pow_int genesis 100))
     <> round_number genesis + 1.
Proof.
  vm_compute. split; discriminate.
Qed.

(** C4 at the genesis registry with the reward of the tests. *)
Lemma rewards_conserved_witness :
  sum (fibonacci_distribution 1000000 6) = 1000000
  /\ sum (values (calculate_rewards genesis 1 1000000)) = 1000000.
Proof.
  split.
  - apply (proj1 (rewards_conserved) 1000000 6). lia.
  - apply (proj2 (rewards_conserved) genesis 1 1000000).
    + apply (reachable_registry_ok pow_int), genesis_reachable.
    + vm_compute. discriminate.
Defined.

(** C4 as stated fails in its last part.  In [registry_ba] with a total of
    1 both truncated shares are 0 and the leftover is 1; the first validator
    in canonical order is [a], which receives 0, and the leftover goes to
    [b], the first validator registered. *)
Lemma remainder_canonical_counterexample :
  let total := 1 in
  let rewards := calculate_rewards registry_ba 0 total in
  let fibs := fibonacci_sequence 1 (len (active_validators registry_ba)) in
  let shares := map (reward_amount (sum fibs) total) fibs in
  exists first,
    hd_error (spec_canonical_active_list registry_ba) = Some first
    /\ total - sum shares = 1
    /\ dict_get (address first) rewards
       <> Some (hd 0 shares + (total - sum shares)).
Proof.
  eexists. split; [vm_compute; reflexivity|].
  vm_compute. split; [reflexivity|discriminate].
Qed.

(** C5 at total 7 over 4 slots: slot 1 is the integer part of
    [0.1428...14 * 7 = 0.9999...98], one less than the exact floor. *)
Lemma distribution_slot_share_witness :
  nth (Z.to_nat 1) (fibonacci_distribution 7 4) 0
  = Dec.to_int (Dec.mul (Dec.div (of_int (fibonacci (1 + 1)))
                                 (of_int (sum (fibonacci_sequence 1 4))))
                        (of_int 7))
  /\ spec_floor_share (sum (fibonacci_sequence 1 4)) 7 (fibonacci (1 + 1)) - 1
     <= nth (Z.to_nat 1) (fibonacci_distribution 7 4) 0
     <= spec_floor_share (sum (fibonacci_sequence 1 4)) 7 (fibonacci (1 + 1)).
Proof.
  split.
  - apply (proj1 (distribution_slot_share 7 4 ltac:(lia)) 1). lia.
  - apply (proj2 (proj2 (distribution_slot_share 7 4 ltac:(lia)))
             ltac:(lia) ltac:(vm_compute; discriminate) 1 ltac:(lia)).
Defined.

(** C5 as stated fails: for a total of 7 over 4 slots the weights are
    1, 1, 2, 3 and the exact floor share of slot 1 is [floor(1 * 7 / 7) = 1],
    while the engine assigns 0. *)
Lemma distribution_floor_counterexample :
  nth (Z.to_nat 1) (fibonacci_distribution 7 4) 0
  <> spec_floor_share (sum (fibonacci_sequence 1 4)) 7 (fibonacci (1 + 1)).
Proof.
  vm_compute. discriminate.
Qed.

(** C6 at the genesis registry: registering validator 0 again. *)
Lemma add_validator_existing_address_witness :
  fst (add_validator pow_int genesis "phi_genesis_validator_0" "other_key"
                     5 None) = false
  /\ snd (add_validator pow_int genesis "phi_genesis_validator_0" "other_key"
                        5 None) = genesis.
Proof.
  apply (add_validator_existing_address pow_int genesis). reflexivity.
Defined.

(** C7 at the genesis registry with the block of the tests; the score of
    validator 0 in the genesis registry is within the bound. *)
Lemma validate_block_success_score_witness :
  (exists v',
      dict_get "phi_genesis_validator_1"
        (validators
           (snd (validate_block genesis test_block "phi_genesis_validator_1"
                                1700000000))) = Some v'
      /\ performance_score v'
         = Dec.min (Dec.add (Dec.mul one (mkDecimal 95 (-2)))
                            (mkDecimal 5 (-2)))
                   one
      /\ last_validated v' = 1700000000)
  /\ Dec.leb (performance_score
                (mkValidator "phi_genesis_validator_0" "genesis_pub_key_00"
                             1000000 (mkDecimal 1 0) 0 true 0 one))
             one = true.
Proof.
  split.
  - apply (proj1 (validate_block_success_score pow_int) genesis test_block
                 "phi_genesis_validator_1"%string 1700000000
                 (mkValidator "phi_genesis_validator_1" "genesis_pub_key_01"
                              1618033 (mkDecimal 16180339887 (-10)) 1 true 0
                              one)).
    + reflexivity.
    + reflexivity.
    + reflexivity.
  - apply (proj2 (validate_block_success_score pow_int) genesis
                 "phi_genesis_validator_0"%string).
    + exact genesis_reachable.
    + reflexivity.
Defined.

(** C8 at the genesis registry with a wrong Fibonacci number. *)
Lemma validate_block_rejects_wrong_proof_witness :
  fst (validate_block genesis bad_block "phi_genesis_validator_1" 1700000000)
  = false.
Proof.
  apply validate_block_rejects_wrong_proof.
  left. vm_compute. discriminate.
Defined.

(** C9 at the genesis registry with the rejected block. *)
Lemma failed_validation_changes_nothing_witness :
  snd (validate_block genesis bad_block "phi_genesis_validator_1" 1700000000)
  = genesis.
Proof.
  apply (proj1 (failed_validation_changes_nothing pow_int)).
  reflexivity.
Defined.

(* ================================================================== *)
(** ** Further properties of PhiMath *)
(* ================================================================== *)

Lemma range_snoc start n :
  0 <= n -> range start (n + 1) = range start n ++ [start + n].
Proof.
  intros Hn. unfold range.
  replace (Z.to_nat (n + 1)) with (S (Z.to_nat n)) by lia.
  rewrite seq_S, map_app. cbn [map]. do 3 f_equal. lia.
Qed.

Lemma sum_app l1 l2 : sum (l1 ++ l2) = sum l1 + sum l2.
Proof.
  induction l1 as [|x l1 IH]; cbn [app].
  - rewrite sum_nil. lia.
  - rewrite !sum_cons, IH. lia.
Qed.

Lemma nat_like_ind (P : Z -> Prop) :
  P 0 -> (forall n, 0 <= n -> P n -> P (n + 1)) -> forall n, 0 <= n -> P n.
Proof.
  intros H0 HS. apply natlike_ind; [exact H0|].
  intros x Hx Px. replace (Z.succ x) with (x + 1) by lia. auto.
Qed.

(** X1.  [fibonacci] returns 0 for every index that is zero or negative,
    1 for index 1, and from index 2 on the sum of the two values before:
    the loop computes the Fibonacci numbers. *)
Theorem fibonacci_values :
  (forall n, n <= 0 -> fibonacci n = 0)
  /\ fibonacci 1 = 1
  /\ (forall n, 2 <= n -> fibonacci n = fibonacci (n - 1) + fibonacci (n - 2)).
Proof.
  split; [|split].
  - intros n Hn. unfold fibonacci.
    destruct (Z.leb_spec n 0); [reflexivity|lia].
  - reflexivity.
  - apply fibonacci_recurrence.
Qed.

(** X1 at indices -5 and 10. *)
Lemma fibonacci_values_witness :
  fibonacci (-5) = 0 /\ fibonacci 10 = fibonacci 9 + fibonacci 8.
Proof.
  split.
  - apply (proj1 fibonacci_values). lia.
  - apply (proj2 (proj2 fibonacci_values) 10). lia.
Defined.

(** X2.  [fibonacci_sequence start count] has [max(0, count)] elements, so
    it is empty for a count of zero or less, and its i-th element is
    [fibonacci (start + i)]. *)
Theorem fibonacci_sequence_elements start count :
  len (fibonacci_sequence start count) = Z.max 0 count
  /\ (count <= 0 -> fibonacci_sequence start count = [])
  /\ (forall i, 0 <= i < count ->
        nth_error (fibonacci_sequence start count) (Z.to_nat i)
        = Some (fibonacci (start + i))).
Proof.
  split; [apply fibonacci_sequence_length|]. split.
  - intros Hc. unfold fibonacci_sequence, range.
    replace (Z.to_nat count) with O by lia. reflexivity.
  - intros i Hi. unfold fibonacci_sequence, range.
    rewrite !nth_error_map.
    rewrite nth_error_seq.
    destruct (Nat.ltb_spec (Z.to_nat i) (Z.to_nat count)) as [_|]; [|lia].
    cbn. do 2 f_equal. lia.
Qed.

(** X2 at a negative count and at element 6 of the first ten. *)
Lemma fibonacci_sequence_elements_witness :
  fibonacci_sequence 3 (-2) = []
  /\ nth_error (fibonacci_sequence 0 10) (Z.to_nat 6) = Some (fibonacci (0 + 6)).
Proof.
  split.
  - apply (proj1 (proj2 (fibonacci_sequence_elements 3 (-2)))). lia.
  - apply (proj2 (proj2 (fibonacci_sequence_elements 0 10)) 6). lia.
Defined.

(** X3.  The Fibonacci weights of [fibonacci_distribution] add up to
    [fibonacci (count + 2) - 1]: the divisor [total_fib] of a distribution
    over [count] slots is that number. *)
Theorem total_fib_closed_form count :
  0 <= count -> sum (fibonacci_sequence 1 count) = fibonacci (count + 2) - 1.
Proof.
  revert count. apply nat_like_ind.
  - reflexivity.
  - intros n Hn IH. unfold fibonacci_sequence in *.
    rewrite range_snoc by assumption.
    rewrite map_app, sum_app, IH. cbn [map]. rewrite sum_cons, sum_nil.
    rewrite (fibonacci_recurrence (n + 1 + 2)) by lia.
    replace (n + 1 + 2 - 1) with (n + 2) by lia.
    replace (n + 1 + 2 - 2) with (1 + n) by lia. lia.
Qed.

(** X3 for six slots: the weights sum to 20. *)
Lemma total_fib_closed_form_witness :
  sum (fibonacci_sequence 1 6) = fibonacci (6 + 2) - 1.
Proof. apply total_fib_closed_form. lia. Defined.

Lemma to_int_nonneg x : 0 <= coeff x -> 0 <= Dec.to_int x.
Proof.
  intros Hx. unfold Dec.to_int.
  destruct (Z.leb_spec 0 (expo x)).
  - apply Z.mul_nonneg_nonneg; [assumption|]. apply Z.pow_nonneg. lia.
  - apply Z.quot_pos; [assumption|]. apply Z.pow_pos_nonneg; lia.
Qed.

Lemma fix_nonneg c e : 0 <= c -> 0 <= coeff (fix_ (mkDecimal c e)).
Proof.
  intros Hc.
  destruct (fix_spec c e Hc) as [[-> _] | (c' & D & -> & _ & Hc' & _)].
  - assumption.
  - cbn [coeff]. pose proof (Z.pow_pos_nonneg 10 49). lia.
Qed.

Lemma reward_amount_nonneg S total f :
  1 <= f <= S -> 0 <= total -> 0 <= reward_amount S total f.
Proof.
  intros Hf Ht. unfold reward_amount.
  destruct (div_spec f S Hf) as (c & k & Hdiv & _ & Hc & _).
  rewrite Hdiv. unfold Dec.mul, of_int. cbn [coeff expo].
  apply to_int_nonneg, fix_nonneg.
  apply Z.mul_nonneg_nonneg; [|assumption].
  pose proof (Z.pow_pos_nonneg 10 49). lia.
Qed.

Lemma range_In start count y :
  In y (range start count) -> start <= y < start + count.
Proof.
  unfold range. intros Hin. apply in_map_iff in Hin.
  destruct Hin as [i [<- Hi]]. apply in_seq in Hi. lia.
Qed.

Lemma fibonacci_weights_in_bounds count f :
  In f (fibonacci_sequence 1 count) ->
  1 <= f <= sum (fibonacci_sequence 1 count).
Proof.
  intros Hin. unfold fibonacci_sequence in Hin.
  apply in_map_iff in Hin. destruct Hin as [y [<- Hy]].
  apply range_In in Hy.
  replace y with ((y - 1) + 1) by lia.
  apply fibonacci_weight_bounds. lia.
Qed.

Lemma scaled_sum_upper (g : Z -> Z) S total l :
  (forall x, In x l -> S * g x <= x * total) ->
  S * sum (map g l) <= sum l * total.
Proof.
  induction l as [|x l IH]; intros H.
  - cbn [map]. rewrite !sum_nil. lia.
  - cbn [map]. rewrite !sum_cons.
    pose proof (H x (or_introl eq_refl)).
    assert (S * sum (map g l) <= sum l * total)
      by (apply IH; intros y Hy; apply H; now right).
    lia.
Qed.

Lemma scaled_sum_lower (g : Z -> Z) S total l :
  (forall x, In x l -> x * total - 2 * S <= S * g x) ->
  sum l * total - 2 * S * len l <= S * sum (map g l).
Proof.
  induction l as [|x l IH]; intros H.
  - cbn [map]. rewrite !sum_nil. unfold len. simpl. lia.
  - cbn [map]. rewrite !sum_cons.
    pose proof (H x (or_introl eq_refl)).
    assert (sum l * total - 2 * S * len l <= S * sum (map g l))
      by (apply IH; intros y Hy; apply H; now right).
    unfold len in *. cbn [List.length]. rewrite Nat2Z.inj_succ. lia.
Qed.

(** For totals within the precision of the decimal context no slot is
    negative and the leftover is small. *)
Lemma distribution_nonnegative total count :
  1 <= count -> 0 <= total ->
  total * sum (fibonacci_sequence 1 count) <= 10 ^ 48 ->
  let fibs := fibonacci_sequence 1 count in
  let shares := map (reward_amount (sum fibs) total) fibs in
  Forall (fun x => 0 <= x) (fibonacci_distribution total count)
  /\ 0 <= total - sum shares <= 2 * count.
Proof.
  intros Hc Ht Hb fibs shares.
  pose proof (total_fib_positive count Hc) as HS. fold fibs in HS, Hb.
  assert (Hclose : forall f, In f fibs ->
            0 <= reward_amount (sum fibs) total f
            /\ sum fibs * reward_amount (sum fibs) total f <= f * total
            /\ f * total - 2 * sum fibs
               <= sum fibs * reward_amount (sum fibs) total f).
  { intros f Hin.
    pose proof (fibonacci_weights_in_bounds count f Hin) as Hf.
    fold fibs in Hf.
    destruct (reward_amount_close (sum fibs) total f Hf Ht Hb)
      as [[Hlo Hhi] _].
    pose proof (reward_amount_nonneg (sum fibs) total f Hf Ht) as Hnn.
    pose proof (Z.mul_div_le (f * total) (sum fibs) HS) as Hd.
    pose proof (Z.mod_pos_bound (f * total) (sum fibs) HS) as Hm.
    pose proof (Z.div_mod (f * total) (sum fibs) ltac:(lia)) as Hdm.
    remember (reward_amount (sum fibs) total f) as r eqn:Er. clear Er.
    remember (f * total / sum fibs) as q eqn:Eq. clear Eq.
    remember (f * total mod sum fibs) as m eqn:Em. clear Em.
    remember (sum fibs) as S eqn:ES. clear ES.
    split; [assumption|].
    assert (S * r <= S * q) by (apply Z.mul_le_mono_nonneg_l; lia).
    assert (S * (q - 1) <= S * r) by (apply Z.mul_le_mono_nonneg_l; lia).
    lia. }
  assert (Hup : sum fibs * sum shares <= sum fibs * total).
  { apply scaled_sum_upper. intros f Hin. now apply Hclose. }
  assert (Hlow : sum fibs * total - 2 * sum fibs * len fibs
                 <= sum fibs * sum shares).
  { apply scaled_sum_lower. intros f Hin. now apply Hclose. }
  assert (Hlen : len fibs = count).
  { unfold fibs. rewrite fibonacci_sequence_length. lia. }
  rewrite Hlen in Hlow.
  assert (Hleft : 0 <= total - sum shares <= 2 * count).
  { revert Hup Hlow HS. generalize (sum shares) (sum fibs).
    intros ss S Hup Hlow HS. split.
    - assert (ss <= total); [|lia].
      apply (Z.mul_le_mono_pos_l _ _ S); assumption.
    - assert (total - 2 * count <= ss); [|lia].
      apply (Z.mul_le_mono_pos_l _ _ S); [assumption|]. lia. }
  split; [|assumption].
  rewrite (fibonacci_distribution_unfold total count Hc).
  fold fibs. fold shares.
  assert (Hall : Forall (fun x => 0 <= x) shares).
  { unfold shares. apply Forall_forall. intros r Hr.
    apply in_map_iff in Hr. destruct Hr as [f [<- Hin]].
    now apply Hclose. }
  destruct shares as [|r0 rest]; cbn [hd tl].
  + constructor; [lia|constructor].
  + inversion Hall as [|? ? Hr0 Hrest]. constructor; [lia|assumption].
Qed.

(** X4.  [fibonacci_distribution total count] has [max(0, count)] slots
    and is empty for a count of zero or less.  For [count >= 1],
    [total >= 0] and [total * total_fib <= 10^48], no slot is negative and
    the leftover added to slot 0 lies between 0 and [2 * count]. *)
Theorem distribution_shape total count :
  len (fibonacci_distribution total count) = Z.max 0 count
  /\ (count <= 0 -> fibonacci_distribution total count = [])
  /\ (1 <= count -> 0 <= total ->
      total * sum (fibonacci_sequence 1 count) <= 10 ^ 48 ->
      let fibs := fibonacci_sequence 1 count in
      let shares := map (reward_amount (sum fibs) total) fibs in
      Forall (fun x => 0 <= x) (fibonacci_distribution total count)
      /\ 0 <= total - sum shares <= 2 * count).
Proof.
  split; [apply fibonacci_distribution_length|]. split.
  - intros Hc. unfold fibonacci_distribution.
    destruct (Z.leb_spec count 0); [reflexivity|lia].
  - apply distribution_nonnegative.
Qed.

(** X4 at a count of zero and at a total that does not divide evenly. *)
Lemma distribution_shape_witness :
  fibonacci_distribution 100 0 = []
  /\ Forall (fun x => 0 <= x) (fibonacci_distribution 1000003 6).
Proof.
  split.
  - apply (proj1 (proj2 (distribution_shape 100 0))). lia.
  - apply (proj2 (proj2 (distribution_shape 1000003 6))); try lia.
    vm_compute. discriminate.
Defined.

(* ================================================================== *)
(** ** Further properties of the consensus engine *)
(* ================================================================== *)

Lemma dict_get_set_other {V : Type} (k k' : string) (v : V) (d : dict V) :
  k <> k' -> dict_get k' (dict_set k v d) = dict_get k' d.
Proof.
  intros Hne.
  induction d as [|[k0 v0] d IH]; simpl.
  - destruct (String.eqb_spec k' k); [congruence|reflexivity].
  - destruct (String.eqb_spec k k0) as [->|]; simpl.
    + destruct (String.eqb_spec k' k0); [congruence|reflexivity].
    + destruct (String.eqb k' k0); [reflexivity|assumption].
Qed.


Lemma NoDup_dict_get {V : Type} (k : string) (v : V) (d : dict V) :
  NoDup (keys d) -> In (k, v) d -> dict_get k d = Some v.
Proof.
  induction d as [|[k0 v0] d IH]; simpl; intros Hnd Hin; [contradiction|].
  inversion Hnd as [|? ? Hnin Hnd']; subst.
  destruct Hin as [Heq|Hin].
  - injection Heq as -> ->. now rewrite String.eqb_refl.
  - destruct (String.eqb_spec k k0) as [->|]; [|auto].
    exfalso. apply Hnin. unfold keys. apply in_map_iff.
    exists (k0, v). auto.
Qed.

Lemma keys_combine {V : Type} (ks : list string) (vs : list V) :
  List.length ks = List.length vs -> keys (combine ks vs) = ks.
Proof.
  revert vs. induction ks as [|k ks IH]; intros [|v vs] H;
    simpl in *; try discriminate; [reflexivity|].
  unfold keys in *. rewrite IH by congruence. reflexivity.
Qed.

Lemma dict_get_combine {V : Type} (ks : list string) (vs : list V) i k :
  NoDup ks -> List.length ks = List.length vs ->
  nth_error ks i = Some k ->
  dict_get k (combine ks vs) = nth_error vs i.
Proof.
  revert vs i. induction ks as [|k0 ks IH]; intros [|v vs] i Hnd Hlen Hk;
    simpl in *; try discriminate.
  - destruct i; discriminate.
  - inversion Hnd as [|? ? Hnin Hnd']; subst.
    destruct i as [|i]; simpl in *.
    + injection Hk as ->. now rewrite String.eqb_refl.
    + destruct (String.eqb_spec k k0) as [->|].
      * exfalso. apply Hnin. eapply nth_error_In; eauto.
      * apply IH; auto.
Qed.

Section EngineMore.

Variable dec_pow : Decimal -> Z -> Decimal.


(** X6.  [validate_block] accepts a block exactly when the proposer is a
    registered active validator, the proof carries
    [fibonacci (height mod 1000)] and [height mod 1000], and the header's
    hash has 64 characters.  The signature, the proposer's public key and
    the characters of the hash play no part. *)
Theorem validate_block_accepts_iff st b p now :
  fst (validate_block st b p now) = true <->
  (exists v, dict_get p (validators st) = Some v /\ is_active v = true)
  /\ proof_fibonacci_number (block_proof b)
     = Some (fibonacci (block_height b mod 1000))
  /\ proof_fibonacci_index (block_proof b) = Some (block_height b mod 1000)
  /\ String.length (block_hash b) = 64%nat.
Proof.
  unfold validate_block. fold (block_proof b).
  assert (Hsig : forall pk, _verify_signature b pk = true).
  { intros pk. unfold _verify_signature. destruct (String.eqb _ _); reflexivity. }
  assert (Hproof : _verify_fibonacci_proof (block_proof b) b = true <->
            proof_fibonacci_number (block_proof b)
              = Some (fibonacci (block_height b mod 1000))
            /\ proof_fibonacci_index (block_proof b)
               = Some (block_height b mod 1000)).
  { unfold _verify_fibonacci_proof. fold (block_height b).
    destruct (proof_fibonacci_number (block_proof b)) as [pf|].
    2:{ split; [discriminate|]. intros [H _]. discriminate. }
    destruct (Z.eqb_spec pf (fibonacci (block_height b mod 1000))) as [->|Hne];
      simpl.
    2:{ split; [discriminate|]. intros [H _]. congruence. }
    destruct (proof_fibonacci_index (block_proof b)) as [pi|].
    2:{ split; [discriminate|]. intros [_ H]. discriminate. }
    destruct (Z.eqb_spec pi (block_height b mod 1000)) as [->|Hne]; simpl.
    - tauto.
    - split; [discriminate|]. intros [_ H]. congruence. }
  assert (Hhash : _verify_golden_hash b = true <->
            String.length (block_hash b) = 64%nat).
  { unfold _verify_golden_hash. fold (block_hash b).
    destruct (String.eqb_spec (block_hash b) EmptyString) as [E|E]; simpl.
    - rewrite E. simpl. split; discriminate.
    - destruct (Nat.eqb_spec (String.length (block_hash b)) 64); simpl.
      + tauto.
      + split; [discriminate|]. tauto. }
  destruct (dict_get p (validators st)) as [v|].
  2:{ simpl. split; [discriminate|]. intros [[v [H _]] _]. discriminate. }
  destruct (is_active v) eqn:Hact; simpl.
  2:{ split; [discriminate|]. intros [[w [H Hw]] _]. congruence. }
  destruct (_verify_fibonacci_proof (block_proof b) b) eqn:Hp; simpl.
  2:{ split; [discriminate|]. intros (_ & H1 & H2 & _).
      assert (false = true) by (apply Hproof; auto). discriminate. }
  destruct (_verify_golden_hash b) eqn:Hh; simpl.
  2:{ split; [discriminate|]. intros (_ & _ & _ & H).
      assert (false = true) by (apply Hhash; auto). discriminate. }
  rewrite Hsig. simpl. split; [|reflexivity]. intros _.
  split; [eauto|]. destruct (proj1 Hproof eq_refl). split; [assumption|].
  split; [assumption|]. now apply Hhash.
Qed.

(** X7.  An accepted block changes nothing but the proposer's
    [performance_score] and [last_validated]: the network id, the round,
    the leader index, the keys and their order, every other validator and
    the proposer's remaining fields stay as they were. *)
Theorem validate_block_touches_only_proposer st b p now :
  fst (validate_block st b p now) = true ->
  let st' := snd (validate_block st b p now) in
  network_id st' = network_id st
  /\ round_number st' = round_number st
  /\ current_leader_index st' = current_leader_index st
  /\ keys (validators st') = keys (validators st)
  /\ (forall k, k <> p ->
        dict_get k (validators st') = dict_get k (validators st))
  /\ (exists v v',
        dict_get p (validators st) = Some v
        /\ dict_get p (validators st') = Some v'
        /\ address v' = address v /\ public_key v' = public_key v
        /\ stake v' = stake v /\ weight v' = weight v
        /\ fibonacci_index v' = fibonacci_index v
        /\ is_active v' = is_active v).
Proof.
  intros Hok st'. subst st'.
  destruct (dict_get p (validators st)) as [v|] eqn:Hget.
  2:{ unfold validate_block in Hok. rewrite Hget in Hok. discriminate. }
  destruct (validate_block_outcome st b p now) as [E | E];
    rewrite E in *; [discriminate|]. cbn [snd].
  unfold _update_validator_performance. rewrite Hget.
  cbn [with_validators network_id round_number current_leader_index
       validators].
  repeat split.
  - apply dict_set_keys_present. congruence.
  - intros k Hk. apply dict_get_set_other. congruence.
  - eexists. eexists. split; [reflexivity|].
    rewrite dict_get_set_same. split; [reflexivity|].
    cbn. repeat split.
Qed.

Lemma update_performance_active_addresses st p b now :
  map address (active_validators (_update_validator_performance st p b now))
  = map address (active_validators st).
Proof.
  unfold _update_validator_performance.
  destruct (dict_get p (validators st)) as [v|] eqn:E; [|reflexivity].
  unfold active_validators, values. cbn [with_validators validators].
  revert E. generalize (validators st) as d.
  induction d as [|[k w] d IH]; simpl; [discriminate|].
  destruct (String.eqb p k); intros Hget; simpl.
  - injection Hget as ->. destruct (is_active v); reflexivity.
  - destruct (is_active w); simpl; rewrite IH by assumption; reflexivity.
Qed.

Lemma update_performance_leader_index st p b now :
  current_leader_index (_update_validator_performance st p b now)
  = current_leader_index st.
Proof.
  unfold _update_validator_performance.
  destruct (dict_get p (validators st)); reflexivity.
Qed.

Lemma len_map {A B : Type} (f : A -> B) l : len (map f l) = len l.
Proof. unfold len. now rewrite length_map. Qed.

(** What every validator of a reachable registry satisfies. *)
Lemma reachable_validators_shape st :
  reachable dec_pow st ->
  Forall (fun kv =>
            address (snd kv) = fst kv
            /\ is_active (snd kv) = true
            /\ weight (snd kv)
               = dec_pow (golden_ratio 10) (fibonacci_index (snd kv)))
         (validators st).
Proof.
  revert st.
  apply (reachable_invariant dec_pow
           (fun st => Forall (fun kv =>
              address (snd kv) = fst kv
              /\ is_active (snd kv) = true
              /\ weight (snd kv)
                 = dec_pow (golden_ratio 10) (fibonacci_index (snd kv)))
             (validators st))).
  - intros nid. constructor.
  - intros s op Hs.
    destruct op as [addr pk stk idx|h|b p now|n|h t]; simpl; try assumption.
    + destruct (dict_mem addr (validators s)) eqn:E.
      * rewrite add_validator_duplicate by assumption. assumption.
      * rewrite add_validator_fresh by assumption. simpl.
        apply Forall_app. split; [assumption|].
        constructor; [simpl; auto|constructor].
    + rewrite select_leader_validators. assumption.
    + destruct (validate_block_outcome s b p now) as [-> | ->]; simpl;
        [assumption|].
      unfold _update_validator_performance.
      destruct (dict_get p (validators s)) as [v|] eqn:E; [|assumption].
      simpl. apply dict_set_Forall; [assumption|]. simpl.
      apply dict_get_in in E. rewrite Forall_forall in Hs.
      apply (Hs _ E).
Qed.

(** X8.  The engine has no way to deactivate or alter a registration: in
    every state it can reach, the keys are distinct, every validator is
    active and stored under its own address, its weight is still the power
    of the golden ratio computed from its index, and the active list is the
    whole registry in insertion order. *)
Theorem registry_never_deactivates st :
  reachable dec_pow st ->
  NoDup (keys (validators st))
  /\ active_validators st = values (validators st)
  /\ (forall k v,
        dict_get k (validators st) = Some v ->
        address v = k /\ is_active v = true
        /\ weight v = dec_pow (golden_ratio 10) (fibonacci_index v)).
Proof.
  intros Hr. pose proof (reachable_validators_shape st Hr) as Hs.
  split; [apply (reachable_registry_ok dec_pow st Hr)|]. split.
  - unfold active_validators, values.
    induction Hs as [|[k v] d [_ [Ha _]] Hd IH]; simpl; [reflexivity|].
    simpl in Ha. rewrite Ha, IH. reflexivity.
  - intros k v Hget. apply dict_get_in in Hget.
    rewrite Forall_forall in Hs. apply (Hs _ Hget).
Qed.

Lemma is_unit_score_inv s :
  is_unit_score s = true ->
  exists n, 1 <= n <= 49 /\ s = mkDecimal (10 ^ n) (- n).
Proof.
  unfold is_unit_score. intros H. apply existsb_exists in H.
  destruct H as [n [Hin Hn]]. apply range_In in Hin.
  apply andb_true_iff in Hn. destruct Hn as [Hc He].
  apply Z.eqb_eq in Hc, He. exists n. split; [lia|].
  destruct s as [c e]. simpl in *. congruence.
Qed.

Lemma unit_scores_checked :
  forallb (fun n =>
             is_unit_score (raised_score (mkDecimal (10 ^ n) (- n)))
             && Dec.leb (mkDecimal (10 ^ n) (- n)) one
             && Dec.leb one (mkDecimal (10 ^ n) (- n)))
          (range 1 49) = true.
Proof. vm_compute. reflexivity. Qed.

Lemma unit_score_facts s :
  is_unit_score s = true ->
  is_unit_score (raised_score s) = true
  /\ Dec.leb s one = true /\ Dec.leb one s = true.
Proof.
  intros H. pose proof H as H'. unfold is_unit_score in H'.
  apply existsb_exists in H'. destruct H' as [n [Hin Hn]].
  apply andb_true_iff in Hn. destruct Hn as [Hc He].
  apply Z.eqb_eq in Hc, He.
  assert (Es : s = mkDecimal (10 ^ n) (- n))
    by (destruct s; simpl in *; congruence).
  pose proof unit_scores_checked as Hall.
  rewrite forallb_forall in Hall. specialize (Hall n Hin).
  apply andb_true_iff in Hall. destruct Hall as [Hall H3].
  apply andb_true_iff in Hall. destruct Hall as [H1 H2].
  rewrite Es. auto.
Qed.

Lemma reachable_unit_scores st :
  reachable dec_pow st ->
  Forall (fun kv => is_unit_score (performance_score (snd kv)) = true)
         (validators st).
Proof.
  revert st.
  apply (reachable_invariant dec_pow
           (fun st => Forall (fun kv =>
              is_unit_score (performance_score (snd kv)) = true)
             (validators st))).
  - intros nid. constructor.
  - intros s op Hs.
    destruct op as [addr pk stk idx|h|b p now|n|h t]; simpl; try assumption.
    + destruct (dict_mem addr (validators s)) eqn:E.
      * rewrite add_validator_duplicate by assumption. assumption.
      * rewrite add_validator_fresh by assumption. simpl.
        apply Forall_app. split; [assumption|].
        constructor; [reflexivity|constructor].
    + rewrite select_leader_validators. assumption.
    + destruct (validate_block_outcome s b p now) as [-> | ->]; simpl;
        [assumption|].
      unfold _update_validator_performance.
      destruct (dict_get p (validators s)) as [v|] eqn:E; [|assumption].
      simpl. apply dict_set_Forall; [assumption|]. simpl.
      apply dict_get_in in E. rewrite Forall_forall in Hs.
      specialize (Hs _ E). simpl in Hs.
      apply (unit_score_facts _ Hs).
Qed.

(** X9.  The performance score never moves: in every state the engine can
    reach, each validator's score is one of the decimals [1.0], [1.000],
    ... (a one followed by at most 49 zeros), so it equals [1.0] in value.
    A success update of [1] gives [1 * 0.95 + 0.05 = 1] again and no
    operation lowers a score. *)
Theorem performance_score_stays_one st k v :
  reachable dec_pow st ->
  dict_get k (validators st) = Some v ->
  (exists n, 1 <= n <= 49 /\ performance_score v = mkDecimal (10 ^ n) (- n))
  /\ Dec.leb (performance_score v) one = true
  /\ Dec.leb one (performance_score v) = true.
Proof.
  intros Hr Hget.
  pose proof (reachable_unit_scores st Hr) as Hs.
  rewrite Forall_forall in Hs. apply dict_get_in in Hget.
  specialize (Hs _ Hget). simpl in Hs.
  split; [now apply is_unit_score_inv|]. now apply unit_score_facts.
Qed.

Lemma run_app ops1 ops2 st :
  run dec_pow (ops1 ++ ops2) st = run dec_pow ops2 (run dec_pow ops1 st).
Proof. unfold run. apply fold_left_app. Qed.

Lemma run_round_upper ops : forall st,
  round_number (run dec_pow ops st)
  <= round_number st + len (filter is_select_leader ops).
Proof.
  induction ops as [|op ops IH]; intros st.
  - unfold len. simpl. lia.
  - cbn [run fold_left]. fold (run dec_pow ops (exec dec_pow st op)).
    specialize (IH (exec dec_pow st op)).
    assert (Hstep : round_number (exec dec_pow st op)
                    <= round_number st
                       + (if is_select_leader op then 1 else 0)).
    { destruct op as [addr pk stk idx|h|b p now|n|h t]; simpl; try lia.
      - unfold add_validator.
        destruct (dict_mem addr (validators st)); simpl; lia.
      - rewrite select_leader_unfold.
        destruct (active_validators st); [simpl; lia|].
        destruct (Dec.is_zero _); [simpl; lia|].
        cbv zeta. destruct (nth_error _ _); simpl; lia.
      - destruct (validate_block_outcome st b p now) as [-> | ->]; simpl;
          [lia|]. rewrite update_performance_round. lia. }
    cbn [filter]. unfold len in *.
    destruct (is_select_leader op); cbn [List.length];
      try rewrite Nat2Z.inj_succ; lia.
Qed.

Lemma reachable_leader_index st :
  reachable dec_pow st ->
  0 <= round_number st
  /\ 0 <= current_leader_index st
  /\ (current_leader_index st = 0
      \/ current_leader_index st < len (active_validators st)).
Proof.
  revert st.
  apply (reachable_invariant dec_pow
           (fun st => 0 <= round_number st
              /\ 0 <= current_leader_index st
              /\ (current_leader_index st = 0
                  \/ current_leader_index st < len (active_validators st)))).
  - intros nid. simpl. lia.
  - intros s op (Hr & Hi & Hb).
    destruct op as [addr pk stk idx|h|b p now|n|h t]; simpl; auto.
    + destruct (dict_mem addr (validators s)) eqn:E.
      * rewrite add_validator_duplicate by assumption. auto.
      * rewrite add_validator_fresh by assumption. simpl.
        split; [assumption|]. split; [assumption|].
        destruct Hb as [Hb|Hb]; [now left|right].
        unfold active_validators, values in *. simpl.
        rewrite map_app, filter_app. unfold len in *.
        rewrite length_app. lia.
    + rewrite select_leader_unfold.
      pose proof (selection_index_in_range (active_validators s) h) as Hrange.
      destruct (active_validators s) as [|first rest] eqn:E;
        [cbn [snd]; rewrite E; auto|].
      specialize (Hrange ltac:(discriminate)).
      destruct (Dec.is_zero _); [cbn [snd]; rewrite E; auto|].
      cbv zeta.
      destruct (nth_error _ _); cbn [snd]; [|rewrite E; auto].
      unfold active_validators.
      cbn [with_leader round_number current_leader_index validators].
      fold (active_validators s). rewrite E.
      split; [lia|]. split; [lia|]. right. lia.
    + destruct (validate_block_outcome s b p now) as [-> | ->]; simpl;
        auto.
      rewrite update_performance_round, update_performance_leader_index.
      split; [assumption|]. split; [assumption|].
      destruct Hb as [Hb|Hb]; [now left|right].
      rewrite <- (len_map address), update_performance_active_addresses,
        len_map. assumption.
Qed.

(** X10.  After any sequence of operations on a fresh engine,
    [round_number] lies between 0 and the number of [select_leader] calls
    made, and [current_leader_index] is 0 or a valid position of the active
    list. *)
Theorem round_and_leader_index_bounds nid ops :
  let st := run dec_pow ops (init nid) in
  0 <= round_number st <= len (filter is_select_leader ops)
  /\ 0 <= current_leader_index st
  /\ (current_leader_index st = 0
      \/ current_leader_index st < len (active_validators st)).
Proof.
  intros st.
  assert (Hr : reachable dec_pow st) by (exists nid, ops; reflexivity).
  destruct (reachable_leader_index st Hr) as (H1 & H2 & H3).
  pose proof (run_round_upper ops (init nid)) as Hup. simpl in Hup.
  fold st in Hup. repeat split; auto; lia.
Qed.

End EngineMore.

Lemma range_nth_error start count i :
  0 <= i < count ->
  nth_error (range start count) (Z.to_nat i) = Some (start + i).
Proof.
  intros Hi. unfold range. rewrite nth_error_map, nth_error_seq.
  destruct (Nat.ltb_spec (Z.to_nat i) (Z.to_nat count)) as [_|]; [|lia].
  cbn. do 2 f_equal. lia.
Qed.

Lemma range_In_iff start count y :
  In y (range start count) <-> start <= y < start + count.
Proof.
  split; [apply range_In|]. intros Hy.
  replace y with (start + (y - start)) by lia.
  eapply nth_error_In. apply range_nth_error. lia.
Qed.

(** X11.  [get_validator_rotation_schedule st n] is empty when no
    validator is active.  Otherwise it has [max(0, n)] entries, entry [o] is
    the pair of [o] and the address at position
    [fibonacci (o mod 20) mod N] of the active list ([N] its length), every
    address listed is that of an active validator, and the schedule repeats
    with period 20. *)
Theorem rotation_schedule_entries st n :
  let addrs := map address (active_validators st) in
  let schedule := get_validator_rotation_schedule st n in
  (addrs = [] -> schedule = [])
  /\ (addrs <> [] ->
      len schedule = Z.max 0 n
      /\ (forall o, 0 <= o < n ->
            nth_error schedule (Z.to_nat o)
            = Some (o, nth (Z.to_nat (fibonacci (o mod 20) mod len addrs))
                           addrs EmptyString))
      /\ (forall o a, In (o, a) schedule -> 0 <= o < n /\ In a addrs)
      /\ (forall o a, In (o, a) schedule -> o + 20 < n ->
            In (o + 20, a) schedule)).
Proof.
  intros addrs schedule. subst schedule.
  unfold get_validator_rotation_schedule. fold addrs.
  destruct addrs as [|a0 rest] eqn:E; [split; [reflexivity|congruence]|].
  rewrite <- E. split; [rewrite E; discriminate|]. intros _.
  assert (HN : 0 < len addrs) by (rewrite E; unfold len; simpl; lia).
  set (entry := fun block_offset : Z =>
         (block_offset,
          nth (Z.to_nat (fibonacci (block_offset mod 20) mod len addrs))
              addrs EmptyString)).
  change (map _ (range 0 n)) with (map entry (range 0 n)).
  split; [|split; [|split]].
  - rewrite len_map. apply range_length.
  - intros o Ho. rewrite nth_error_map, (range_nth_error 0 n o Ho).
    reflexivity.
  - intros o a Hin. apply in_map_iff in Hin.
    destruct Hin as [o' [Heq Hin]]. injection Heq as -> <-.
    apply range_In in Hin. split; [lia|].
    apply nth_In.
    pose proof (Z.mod_pos_bound (fibonacci (o mod 20)) (len addrs) HN).
    unfold len in *. lia.
  - intros o a Hin Hn. apply in_map_iff in Hin.
    destruct Hin as [o' [Heq Hin]]. injection Heq as -> <-.
    apply range_In in Hin. apply in_map_iff. exists (o + 20). split.
    + unfold entry. f_equal.
      replace ((o + 20) mod 20) with (o mod 20); [reflexivity|].
      replace (o + 20) with (o + 1 * 20) by lia.
      now rewrite Z.mod_add by lia.
    + apply range_In_iff. lia.
Qed.

(** X11 at the genesis registry and at an empty one. *)
Lemma rotation_schedule_entries_witness :
  len (get_validator_rotation_schedule genesis 100) = Z.max 0 100
  /\ get_validator_rotation_schedule (init "phi-mainnet-1") 100 = [].
Proof.
  split.
  - refine (proj1 (proj2 (rotation_schedule_entries genesis 100) _)).
    vm_compute. discriminate.
  - apply (proj1 (rotation_schedule_entries (init "phi-mainnet-1") 100)).
    reflexivity.
Defined.

(** X12.  [calculate_rewards] returns an empty mapping when no validator
    is active, so nothing is paid out then.  In a well-formed registry the
    mapping has one entry per active validator, in the order of the active
    list, the validator at position [i] receiving slot [i] of
    [fibonacci_distribution]; for [total_reward >= 0] with
    [total_reward * total_fib <= 10^48] no reward is negative. *)
Theorem calculate_rewards_entries st h total :
  (active_validators st = [] -> calculate_rewards st h total = [])
  /\ (registry_ok st ->
      let active := active_validators st in
      let amounts := fibonacci_distribution total (len active) in
      keys (calculate_rewards st h total) = map address active
      /\ (forall i v, nth_error active i = Some v ->
            dict_get (address v) (calculate_rewards st h total)
            = nth_error amounts i)
      /\ (0 <= total ->
          total * sum (fibonacci_sequence 1 (len active)) <= 10 ^ 48 ->
          Forall (fun kv => 0 <= snd kv) (calculate_rewards st h total))).
Proof.
  split.
  - intros E. unfold calculate_rewards. rewrite E. reflexivity.
  - intros Hok active amounts.
    rewrite (calculate_rewards_positional st h total Hok).
    fold active. fold amounts.
    pose proof (active_addresses_NoDup st Hok) as Hnd. fold active in Hnd.
    assert (Hlen : List.length (map address active) = List.length amounts).
    { pose proof (fibonacci_distribution_length total (len active)) as Hl.
      fold amounts in Hl. rewrite length_map. unfold len in Hl. lia. }
    split; [now apply keys_combine|]. split.
    + intros i v Hi. apply dict_get_combine; auto.
      rewrite nth_error_map, Hi. reflexivity.
    + intros Ht Hb.
      destruct (Z.le_gt_cases 1 (len active)) as [Hc|Hc].
      * destruct (distribution_nonnegative total (len active) Hc Ht Hb)
          as [Hnn _].
        fold amounts in Hnn.
        apply Forall_forall. intros [k a] Hin. simpl.
        apply in_combine_r in Hin. rewrite Forall_forall in Hnn. auto.
      * assert (active = []) as ->
          by (destruct active; [reflexivity|unfold len in Hc; simpl in Hc; lia]).
        constructor.
Qed.

(** X12 at an empty registry and at the genesis registry. *)
Lemma calculate_rewards_entries_witness :
  calculate_rewards (init "phi-mainnet-1") 1 1000000 = []
  /\ keys (calculate_rewards genesis 1 1000000)
     = map address (active_validators genesis).
Proof.
  split.
  - apply (proj1 (calculate_rewards_entries (init "phi-mainnet-1") 1 1000000)).
    reflexivity.
  - refine (proj1 (proj2 (calculate_rewards_entries genesis 1 1000000) _)).
    apply (reachable_registry_ok pow_int), genesis_reachable.
Defined.

(* ================================================================== *)
(** ** Properties of the blockchain *)
(* ================================================================== *)

Lemma select_leader_some (dec_pow : Decimal -> Z -> Decimal) st h :
  active_validators st <> [] ->
  exists v, fst (select_leader dec_pow st h) = Some v
            /\ In v (active_validators st).
Proof.
  intros Hne. rewrite select_leader_unfold.
  destruct (selected_exists (active_validators st) h Hne) as [w Hw].
  destruct (active_validators st) as [|first rest] eqn:E; [congruence|].
  destruct (Dec.is_zero _).
  - exists first. split; [reflexivity|now left].
  - cbv zeta. rewrite Hw. exists w. split; [reflexivity|].
    eapply nth_error_In; eauto.
Qed.

(** The block data [create_block] builds passes the proof and hash checks
    whatever the index, which leaves the proposer's standing to decide. *)
Lemma validate_generated st idx addr now :
  validate_block st (validation_data idx) addr now
  = match dict_get addr (validators st) with
    | Some v =>
        if is_active v
        then (true, _update_validator_performance st addr true now)
        else (false, st)
    | None => (false, st)
    end.
Proof.
  unfold validate_block.
  destruct (dict_get addr (validators st)) as [v|]; [|reflexivity].
  destruct (is_active v); [|reflexivity]. cbn [negb].
  assert (Hp : _verify_fibonacci_proof
                 (mkMathProof (Some (fibonacci (idx mod 1000)))
                              (Some (idx mod 1000)))
                 (validation_data idx) = true).
  { unfold _verify_fibonacci_proof. cbn.
    rewrite !Z.eqb_refl. reflexivity. }
  cbn [mathematical_proof validation_data]. 
  change (mkBlockData (Some idx)
            (Some (mkMathProof (Some (fibonacci (idx mod 1000)))
                               (Some (idx mod 1000))))
            (Some (mkHeader (Some hash64)))
            (Some "test_signature"%string)) with (validation_data idx).
  rewrite Hp. reflexivity.
Qed.

Section ChainFacts.

Variable dec_pow : Decimal -> Z -> Decimal.
Variable Float : Type.

Implicit Types (bc : Blockchain Float) (b : Block Float).

Lemma create_block_cases bc prf ph addr t now :
  let block :=
    mkBlock (len (chain bc) + 1) t (current_transactions bc) prf ph addr in
  (proposer_in_good_standing bc addr ->
   create_block bc prf ph addr t now
   = (Some block,
      mkBlockchain (chain bc ++ [block]) []
        (_update_validator_performance (consensus_engine bc) addr true now)))
  /\ (~ proposer_in_good_standing bc addr ->
      create_block bc prf ph addr t now
      = (None, mkBlockchain (chain bc) [] (consensus_engine bc))).
Proof.
  intros block. unfold create_block, proposer_in_good_standing.
  cbn [index]. rewrite validate_generated.
  destruct (dict_get addr (validators (consensus_engine bc))) as [v|].
  - destruct (is_active v) eqn:Ha.
    + split; [reflexivity|]. intros H. exfalso. apply H. eauto.
    + split; [|reflexivity]. intros [w [Hw Hact]]. congruence.
  - split; [|reflexivity]. intros [w [Hw _]]. discriminate.
Qed.

(** X13.  [create_block] accepts a block exactly when the proposer is a
    registered active validator; the proof and the previous hash passed in
    are stored but never checked.  An accepted block gets index
    [len(chain) + 1], carries the pending transactions, is appended to the
    chain, empties the pending list and raises the proposer's score with
    [last_validated = now]. *)
Theorem create_block_accepts bc prf ph addr t now :
  let block :=
    mkBlock (len (chain bc) + 1) t (current_transactions bc) prf ph addr in
  (fst (create_block bc prf ph addr t now) <> None
   <-> proposer_in_good_standing bc addr)
  /\ (proposer_in_good_standing bc addr ->
      create_block bc prf ph addr t now
      = (Some block,
         mkBlockchain (chain bc ++ [block]) []
           (_update_validator_performance (consensus_engine bc) addr true
                                          now))).
Proof.
  intros block.
  destruct (create_block_cases bc prf ph addr t now) as [Hyes Hno].
  split; [|exact Hyes]. split.
  - intros Hsome.
    destruct (dict_get addr (validators (consensus_engine bc))) as [v|] eqn:E.
    + destruct (is_active v) eqn:Ha; [exists v; auto|].
      exfalso. apply Hsome. rewrite Hno; [reflexivity|].
      intros [w [Hw Hact]]. congruence.
    + exfalso. apply Hsome. rewrite Hno; [reflexivity|].
      intros [w [Hw _]]. congruence.
  - intros Hgood. rewrite (Hyes Hgood). discriminate.
Qed.

(** X14.  A block proposed by an address that is not a registered active
    validator is rejected: [create_block] returns nothing and leaves the
    chain and the engine as they were, but the pending transactions are
    discarded all the same. *)
Theorem create_block_rejection_drops_pending bc prf ph addr t now :
  ~ proposer_in_good_standing bc addr ->
  fst (create_block bc prf ph addr t now) = None
  /\ chain (snd (create_block bc prf ph addr t now)) = chain bc
  /\ consensus_engine (snd (create_block bc prf ph addr t now))
     = consensus_engine bc
  /\ current_transactions (snd (create_block bc prf ph addr t now)) = [].
Proof.
  intros Hbad.
  rewrite (proj2 (create_block_cases bc prf ph addr t now) Hbad).
  repeat split.
Qed.

Lemma blockchain_init_eq (t : Float) now :
  blockchain_init dec_pow t now
  = mkBlockchain [] [] (create_genesis_validators dec_pow).
Proof. reflexivity. Qed.

(** X15.  A freshly constructed [Blockchain] has an empty chain: the
    genesis block is proposed before any validator is registered and is
    therefore rejected.  The engine then holds the six genesis validators,
    [last_block] is [None], and [new_transaction] queues its transaction
    but fails to return an index. *)
Theorem blockchain_starts_empty (t : Float) now :
  let bc := blockchain_init dec_pow t now in
  chain bc = []
  /\ current_transactions bc = []
  /\ consensus_engine bc = create_genesis_validators dec_pow
  /\ last_block bc = None
  /\ (forall s r a t',
        fst (new_transaction bc s r a t') = None
        /\ current_transactions (snd (new_transaction bc s r a t'))
           = [mkTransaction s r a t']).
Proof.
  intros bc. subst bc. rewrite blockchain_init_eq.
  repeat split.
Qed.

Lemma last_default {A : Type} (l : list A) (x y z : A) :
  last (x :: l) y = last (x :: l) z.
Proof.
  revert x. induction l as [|w l IH]; intros x; [reflexivity|].
  change (last (w :: l) y = last (w :: l) z). apply IH.
Qed.

Lemma nth_error_last {A : Type} (l : list A) (x : A) :
  nth_error (x :: l) (List.length l) = Some (last l x).
Proof.
  revert x. induction l as [|w l IH]; intros x; [reflexivity|].
  cbn [List.length nth_error]. rewrite IH. f_equal.
  destruct l as [|u l]; [reflexivity|].
  change (last (u :: l) w = last (u :: l) x). apply last_default.
Qed.

(** X16.  [new_transaction] always appends the transaction to the pending
    list and leaves the chain and the engine alone.  It fails (the
    [AttributeError] of an absent last block) exactly when the chain is
    empty; on a chain whose blocks are numbered from 1 it returns
    [len(chain) + 1]. *)
Theorem new_transaction_result bc s r a t :
  let bc' := snd (new_transaction bc s r a t) in
  current_transactions bc'
    = current_transactions bc ++ [mkTransaction s r a t]
  /\ chain bc' = chain bc
  /\ consensus_engine bc' = consensus_engine bc
  /\ (fst (new_transaction bc s r a t) = None <-> chain bc = [])
  /\ (chain_indexed bc -> chain bc <> [] ->
      fst (new_transaction bc s r a t) = Some (len (chain bc) + 1)).
Proof.
  intros bc'. subst bc'. unfold new_transaction, last_block.
  cbn [chain].
  destruct (chain bc) as [|b0 rest] eqn:E; cbn [fst snd chain
    current_transactions consensus_engine].
  - repeat split; try reflexivity; congruence.
  - split; [reflexivity|]. split; [reflexivity|]. split; [reflexivity|].
    split; [split; discriminate|].
    intros Hidx _. f_equal.
    assert (Hlast : nth_error (chain bc) (List.length rest)
                    = Some (last rest b0)).
    { rewrite E. apply nth_error_last. }
    rewrite (Hidx _ _ Hlast). unfold len. cbn [List.length]. lia.
Qed.

Lemma good_standing_dec bc addr :
  proposer_in_good_standing bc addr \/ ~ proposer_in_good_standing bc addr.
Proof.
  unfold proposer_in_good_standing.
  destruct (dict_get addr (validators (consensus_engine bc))) as [v|].
  - destruct (is_active v) eqn:Ha; [left; eauto|].
    right. intros [w [Hw Hact]]. congruence.
  - right. intros [w [Hw _]]. discriminate.
Qed.

Lemma reachable_step st op :
  reachable dec_pow st -> reachable dec_pow (exec dec_pow st op).
Proof.
  intros [nid [ops ->]]. exists nid, (ops ++ [op]).
  rewrite run_app. reflexivity.
Qed.

Lemma update_performance_keys st p bsucc now :
  keys (validators (_update_validator_performance st p bsucc now))
  = keys (validators st).
Proof.
  unfold _update_validator_performance.
  destruct (dict_get p (validators st)) as [v|] eqn:E; [|reflexivity].
  cbn [with_validators validators]. apply dict_set_keys_present. congruence.
Qed.

Lemma chain_indexed_snoc bc (block : Block Float) pending engine :
  chain_indexed bc -> index block = len (chain bc) + 1 ->
  chain_indexed (mkBlockchain (chain bc ++ [block]) pending engine).
Proof.
  intros Hidx Hb i b Hnth. cbn [chain] in Hnth.
  destruct (Nat.lt_ge_cases i (List.length (chain bc))) as [Hlt|Hge].
  - rewrite nth_error_app1 in Hnth by assumption. now apply Hidx.
  - rewrite nth_error_app2 in Hnth by assumption.
    destruct (i - List.length (chain bc))%nat as [|j] eqn:Ej.
    + cbn in Hnth. injection Hnth as <-. rewrite Hb. unfold len. lia.
    + destruct j; discriminate.
Qed.

Lemma dict_mem_keys_eq {V : Type} (d1 d2 : dict V) k :
  keys d1 = keys d2 -> dict_mem k d1 = dict_mem k d2.
Proof.
  intros Hk.
  destruct (dict_mem k d1) eqn:E1; destruct (dict_mem k d2) eqn:E2;
    try reflexivity.
  - apply dict_mem_in in E1. rewrite Hk in E1. apply dict_mem_in in E1.
    congruence.
  - apply dict_mem_in in E2. rewrite <- Hk in E2. apply dict_mem_in in E2.
    congruence.
Qed.

Lemma chain_exec_invariant bc op :
  chain_invariant dec_pow bc -> chain_invariant dec_pow (chain_exec dec_pow bc op).
Proof.
  intros (Hidx & Hkeys & Hprop & Hreach).
  destruct op as [prf ph addr t now|s r a t|]; cbn [chain_exec].
  - destruct (create_block_cases bc prf ph addr t now) as [Hyes Hno].
    destruct (good_standing_dec bc addr) as [Hgood|Hbad].
    + rewrite (Hyes Hgood). cbn [snd]. split; [|split; [|split]].
      * apply chain_indexed_snoc; [assumption|reflexivity].
      * cbn [consensus_engine]. now rewrite update_performance_keys.
      * cbn [chain consensus_engine]. intros b Hin.
        rewrite (dict_mem_keys_eq _ (validators (consensus_engine bc)))
          by apply update_performance_keys.
        apply in_app_or in Hin. destruct Hin as [Hin|[<-|[]]]; [auto|].
        cbn [validator_address]. destruct Hgood as [v [Hv _]].
        unfold dict_mem. now rewrite Hv.
      * cbn [consensus_engine].
        replace (_update_validator_performance (consensus_engine bc) addr
                   true now)
          with (exec dec_pow (consensus_engine bc)
                  (OpValidateBlock (validation_data (len (chain bc) + 1))
                                   addr now)).
        -- now apply reachable_step.
        -- cbn [exec]. rewrite validate_generated.
           destruct Hgood as [v [-> ->]]. reflexivity.
    + rewrite (Hno Hbad). cbn [snd]. repeat split; assumption.
  - unfold new_transaction.
    destruct (last_block _); cbn [snd]; repeat split; assumption.
  - unfold get_next_leader.
    destruct (select_leader dec_pow (consensus_engine bc)
                (len (chain bc) + 1)) as [leader engine] eqn:E.
    cbn [snd].
    assert (Heng : engine = exec dec_pow (consensus_engine bc)
                              (OpSelectLeader (len (chain bc) + 1)))
      by (cbn [exec]; now rewrite E).
    assert (Hval : validators engine = validators (consensus_engine bc)).
    { rewrite Heng. cbn [exec]. apply select_leader_validators. }
    split; [|split; [|split]]; cbn [chain consensus_engine].
    + exact Hidx.
    + now rewrite Hval.
    + intros b Hin. rewrite Hval. auto.
    + rewrite Heng. now apply reachable_step.
Qed.

Lemma chain_reachable_invariant bc :
  chain_reachable dec_pow bc -> chain_invariant dec_pow bc.
Proof.
  intros (t & now & ops & ->).
  assert (Hinit : chain_invariant dec_pow (blockchain_init dec_pow t now)).
  { rewrite blockchain_init_eq. split; [|split; [|split]].
    - intros i b Hnth. destruct i; discriminate.
    - reflexivity.
    - intros b [].
    - exists "phi-mainnet-1"%string, genesis_ops. reflexivity. }
  revert Hinit. generalize (blockchain_init dec_pow t now).
  induction ops as [|op ops IH]; intros bc0 H0; [exact H0|].
  cbn [chain_run fold_left]. apply IH. now apply chain_exec_invariant.
Qed.

(** X17.  In every chain a node can hold, block [i] (from 0) carries index
    [i + 1], every stored block was proposed by a registered validator, and
    the engine still has exactly the genesis validators under the same
    keys: no chain operation registers or removes a validator. *)
Theorem chain_blocks_numbered_and_attributed bc :
  chain_reachable dec_pow bc ->
  (forall i b, nth_error (chain bc) i = Some b ->
     index b = Z.of_nat i + 1
     /\ dict_mem (validator_address b) (validators (consensus_engine bc))
        = true)
  /\ keys (validators (consensus_engine bc))
     = keys (validators (create_genesis_validators dec_pow))
  /\ reachable dec_pow (consensus_engine bc).
Proof.
  intros Hr.
  destruct (chain_reachable_invariant bc Hr) as (Hidx & Hkeys & Hprop & He).
  split; [|split; assumption].
  intros i b Hnth. split; [now apply Hidx|].
  apply Hprop. eapply nth_error_In; eauto.
Qed.

Lemma new_transaction_index bc s r a t i :
  chain_indexed bc ->
  fst (new_transaction bc s r a t) = Some i -> i = len (chain bc) + 1.
Proof.
  intros Hidx. unfold new_transaction, last_block. cbn [chain].
  destruct (chain bc) as [|b0 rest] eqn:E; cbn [fst]; [discriminate|].
  intros H. injection H as <-.
  assert (Hlast : nth_error (chain bc) (List.length rest)
                  = Some (last rest b0))
    by (rewrite E; apply nth_error_last).
  rewrite (Hidx _ _ Hlast). unfold len. cbn [List.length]. lia.
Qed.

(** X18.  The index [new_transaction] returns is kept: on a chain numbered
    from 1, if the next [create_block] comes from a registered active
    validator, the block it appends has the index that was returned and
    contains the transaction. *)
Theorem transaction_lands_in_announced_block bc s r a t prf ph addr t' now i :
  chain_indexed bc ->
  fst (new_transaction bc s r a t) = Some i ->
  proposer_in_good_standing bc addr ->
  exists block,
    fst (create_block (snd (new_transaction bc s r a t)) prf ph addr t' now)
    = Some block
    /\ index block = i
    /\ In (mkTransaction s r a t) (transactions block)
    /\ last_block (snd (create_block (snd (new_transaction bc s r a t))
                                     prf ph addr t' now)) = Some block.
Proof.
  intros Hidx Hsome Hgood.
  pose proof (new_transaction_index bc s r a t i Hidx Hsome) as Hi.
  set (bc' := snd (new_transaction bc s r a t)).
  assert (Hbc' : bc' = mkBlockchain (chain bc)
                         (current_transactions bc ++ [mkTransaction s r a t])
                         (consensus_engine bc)).
  { unfold bc', new_transaction. destruct (last_block _); reflexivity. }
  assert (Hgood' : proposer_in_good_standing bc' addr)
    by (rewrite Hbc'; exact Hgood).
  rewrite (proj1 (create_block_cases bc' prf ph addr t' now) Hgood').
  eexists. split; [reflexivity|]. cbn [index transactions snd].
  rewrite Hbc'. cbn [chain current_transactions]. split; [lia|]. split.
  - apply in_or_app. right. now left.
  - unfold last_block. cbn [chain].
    destruct (chain bc) as [|b0 rest]; [reflexivity|].
    cbn [app]. f_equal. apply last_last.
Qed.

(** X19.  On every chain a node can hold, [get_next_leader] names a
    validator, leaves the chain and the pending transactions alone, and a
    block then proposed by the address it named is accepted. *)
Theorem next_leader_can_propose bc :
  chain_reachable dec_pow bc ->
  exists a,
    fst (get_next_leader dec_pow bc) = Some a
    /\ chain (snd (get_next_leader dec_pow bc)) = chain bc
    /\ current_transactions (snd (get_next_leader dec_pow bc))
       = current_transactions bc
    /\ (forall prf ph (t : Float) now,
          fst (create_block (snd (get_next_leader dec_pow bc)) prf ph a t now)
          <> None).
Proof.
  intros Hr.
  destruct (chain_reachable_invariant bc Hr) as (_ & Hkeys & _ & He).
  pose proof (reachable_validators_shape dec_pow _ He) as Hshape.
  pose proof (reachable_registry_ok dec_pow _ He) as [Hnd _].
  set (eng := consensus_engine bc) in *.
  assert (Hall : active_validators eng = values (validators eng)).
  { unfold active_validators, values. clear -Hshape.
    induction Hshape as [|[k v] d [_ [Ha _]] Hd IH]; simpl; [reflexivity|].
    simpl in Ha. rewrite Ha, IH. reflexivity. }
  assert (Hne : active_validators eng <> []).
  { assert (Hk : keys (validators eng) <> [])
      by (rewrite Hkeys; vm_compute; discriminate).
    rewrite Hall. unfold values.
    destruct (validators eng); [now contradiction Hk|discriminate]. }
  destruct (select_leader_some dec_pow eng (len (chain bc) + 1) Hne)
    as [v [Hsel Hin]].
  exists (address v). unfold get_next_leader. fold eng.
  pose proof (select_leader_validators dec_pow eng (len (chain bc) + 1))
    as Hval.
  destruct (select_leader dec_pow eng (len (chain bc) + 1))
    as [leader engine] eqn:E.
  cbn [fst snd] in *. subst leader.
  split; [reflexivity|]. split; [reflexivity|]. split; [reflexivity|].
  intros prf ph t now.
  rewrite Hall in Hin. unfold values in Hin. apply in_map_iff in Hin.
  destruct Hin as [[k w] [Hw Hin]]. simpl in Hw. subst w.
  rewrite Forall_forall in Hshape.
  destruct (Hshape _ Hin) as [Haddr [Hact _]]. simpl in Haddr, Hact.
  assert (Hgood : proposer_in_good_standing
                    (mkBlockchain (chain bc) (current_transactions bc) engine)
                    (address v)).
  { exists v. cbn [consensus_engine]. rewrite Hval. split; [|assumption].
    rewrite Haddr. now apply NoDup_dict_get. }
  rewrite (proj1 (create_block_cases _ prf ph (address v) t now) Hgood).
  discriminate.
Qed.

Lemma chain_exec_appends bc op :
  exists new, chain (chain_exec dec_pow bc op) = chain bc ++ new
              /\ (List.length new <= 1)%nat.
Proof.
  destruct op as [prf ph addr t now|s r a t|]; cbn [chain_exec].
  - destruct (create_block_cases bc prf ph addr t now) as [Hyes Hno].
    destruct (good_standing_dec bc addr) as [Hgood|Hbad].
    + rewrite (Hyes Hgood). cbn [snd chain]. eexists. split; [reflexivity|].
      simpl. lia.
    + rewrite (Hno Hbad). cbn [snd chain]. exists [].
      rewrite app_nil_r. split; [reflexivity|]. simpl. lia.
  - unfold new_transaction. exists []. rewrite app_nil_r.
    destruct (last_block _); cbn [snd chain]; split; try reflexivity;
      simpl; lia.
  - unfold get_next_leader. exists []. rewrite app_nil_r.
    destruct (select_leader dec_pow _ _). cbn [snd chain].
    split; [reflexivity|]. simpl. lia.
Qed.

(** X20.  The chain is append-only: whatever operations follow, the blocks
    already stored stay where they are and unchanged, and the chain grows by
    at most one block per operation. *)
Theorem chain_append_only ops : forall bc,
  exists new,
    chain (chain_run dec_pow ops bc) = chain bc ++ new
    /\ (List.length new <= List.length ops)%nat.
Proof.
  induction ops as [|op ops IH]; intros bc.
  - exists []. rewrite app_nil_r. split; [reflexivity|]. simpl. lia.
  - cbn [chain_run fold_left].
    destruct (chain_exec_appends bc op) as [new1 [H1 L1]].
    destruct (IH (chain_exec dec_pow bc op)) as [new2 [H2 L2]].
    exists (new1 ++ new2). unfold chain_run in H2. rewrite H2, H1.
    rewrite app_assoc. split; [reflexivity|].
    rewrite length_app. cbn [List.length]. lia.
Qed.

End ChainFacts.

(* ================================================================== *)
(** ** The further properties at concrete inputs *)
(* ================================================================== *)


(** X6 at the genesis registry with the block of the tests. *)
Lemma validate_block_accepts_iff_witness :
  fst (validate_block genesis test_block "phi_genesis_validator_1" 1700000000)
  = true.
Proof.
  apply (proj2 (validate_block_accepts_iff genesis test_block
                  "phi_genesis_validator_1" 1700000000)).
  split; [eexists; split; reflexivity|]. repeat split.
Defined.

(** X7 at the genesis registry with the block of the tests. *)
Lemma validate_block_touches_only_proposer_witness :
  round_number
    (snd (validate_block genesis test_block "phi_genesis_validator_1"
                         1700000000)) = round_number genesis
  /\ keys (validators
             (snd (validate_block genesis test_block "phi_genesis_validator_1"
                                  1700000000)))
     = keys (validators genesis).
Proof.
  pose proof (validate_block_touches_only_proposer genesis test_block
                "phi_genesis_validator_1" 1700000000 eq_refl) as H.
  cbv zeta in H. destruct H as (_ & H2 & _ & H4 & _). split; assumption.
Defined.

(** X8 at the genesis registry. *)
Lemma registry_never_deactivates_witness :
  active_validators genesis = values (validators genesis).
Proof.
  apply (registry_never_deactivates pow_int genesis genesis_reachable).
Defined.

Lemma genesis_validated_reachable : reachable pow_int genesis_validated.
Proof.
  exists "phi-mainnet-1"%string,
    (genesis_ops
     ++ [OpValidateBlock test_block "phi_genesis_validator_1" 1700000000]).
  reflexivity.
Defined.

(** X9 after one accepted block: the score [1.000] of the proposer. *)
Lemma performance_score_stays_one_witness :
  Dec.leb (mkDecimal 1000 (-3)) one = true
  /\ Dec.leb one (mkDecimal 1000 (-3)) = true.
Proof.
  refine (proj2 (performance_score_stays_one pow_int genesis_validated
            "phi_genesis_validator_1"
            (mkValidator "phi_genesis_validator_1" "genesis_pub_key_01"
                         1618033 (mkDecimal 16180339887 (-10)) 1 true
                         1700000000 (mkDecimal 1000 (-3)))
            genesis_validated_reachable _)).
  reflexivity.
Defined.

Lemma fresh_chain_reachable : chain_reachable pow_int fresh_chain.
Proof. exists 0, 0, []. reflexivity. Defined.

Lemma chain_one_reachable : chain_reachable pow_int chain_one.
Proof.
  exists 0, 0,
    [COpCreateBlock 12345 "prev"%string "phi_genesis_validator_1"%string 1
                    1700000000].
  reflexivity.
Defined.

Lemma chain_one_indexed : chain_indexed chain_one.
Proof.
  apply (chain_reachable_invariant pow_int Z chain_one chain_one_reachable).
Defined.

Lemma validator_1_in_good_standing :
  proposer_in_good_standing chain_one "phi_genesis_validator_1".
Proof. eexists. split; reflexivity. Defined.

(** X13 on a fresh chain: genesis validator 1 proposes. *)
Lemma create_block_accepts_witness :
  fst (create_block fresh_chain 12345 "prev" "phi_genesis_validator_1" 1
                    1700000000) <> None.
Proof.
  apply (proj2 (proj1 (create_block_accepts Z fresh_chain 12345 "prev"
                         "phi_genesis_validator_1" 1 1700000000))).
  eexists. split; reflexivity.
Defined.

(** X14 on a fresh chain with one pending transaction and an unknown
    proposer. *)
Lemma create_block_rejection_drops_pending_witness :
  fst (create_block (snd (new_transaction fresh_chain "Alice" "Bob" 10 7))
                    12345 "prev" "nobody" 1 1700000000) = None
  /\ current_transactions
       (snd (create_block
               (snd (new_transaction fresh_chain "Alice" "Bob" 10 7))
               12345 "prev" "nobody" 1 1700000000)) = [].
Proof.
  pose proof (create_block_rejection_drops_pending Z
                (snd (new_transaction fresh_chain "Alice" "Bob" 10 7))
                12345 "prev" "nobody" 1 1700000000) as H.
  destruct H as (H1 & _ & _ & H4).
  - intros [v [Hv _]]. vm_compute in Hv. discriminate Hv.
  - split; assumption.
Defined.

(** X16 on the chain of one block. *)
Lemma new_transaction_result_witness :
  fst (new_transaction chain_one "Alice" "Bob" 10 7)
  = Some (len (chain chain_one) + 1).
Proof.
  apply (proj2 (proj2 (proj2 (proj2
           (new_transaction_result Z chain_one "Alice" "Bob" 10 7))))).
  - exact chain_one_indexed.
  - vm_compute. discriminate.
Defined.

(** X17 on the chain of one block. *)
Lemma chain_blocks_numbered_and_attributed_witness :
  keys (validators (consensus_engine chain_one))
  = keys (validators (create_genesis_validators pow_int)).
Proof.
  apply (chain_blocks_numbered_and_attributed pow_int Z chain_one
           chain_one_reachable).
Defined.

(** X18 on the chain of one block: the transaction is announced for block
    2 and lands there. *)
Lemma transaction_lands_in_announced_block_witness :
  exists block,
    fst (create_block (snd (new_transaction chain_one "Alice" "Bob" 10 7))
                      99 "prev" "phi_genesis_validator_1" 2 1700000005)
    = Some block
    /\ index block = 2
    /\ In (mkTransaction "Alice" "Bob" 10 7) (transactions block)
    /\ last_block
         (snd (create_block
                 (snd (new_transaction chain_one "Alice" "Bob" 10 7))
                 99 "prev" "phi_genesis_validator_1" 2 1700000005))
       = Some block.
Proof.
  apply (transaction_lands_in_announced_block Z chain_one).
  - exact chain_one_indexed.
  - reflexivity.
  - exact validator_1_in_good_standing.
Defined.

(** X19 on a fresh chain. *)
Lemma next_leader_can_propose_witness :
  exists a,
    fst (get_next_leader pow_int fresh_chain) = Some a
    /\ chain (snd (get_next_leader pow_int fresh_chain)) = chain fresh_chain
    /\ current_transactions (snd (get_next_leader pow_int fresh_chain))
       = current_transactions fresh_chain
    /\ (forall prf ph (t : Z) now,
          fst (create_block (snd (get_next_leader pow_int fresh_chain))
                            prf ph a t now) <> None).
Proof.
  apply (next_leader_can_propose pow_int Z fresh_chain fresh_chain_reachable).
Defined.
